(** * PLX87xx NTB driver: A-LUT programming, card reset guard, boot-params
      scratchpads

    A shallow embedding of the parts of [plx_hw.c] that program the address
    lookup table (A-LUT), guard the card reset with a grace period and pass
    the boot-params address through two scratchpad registers.

    Conventions.
    - C integers are [Z]; every place where the C code truncates to 32 or
      64 bits is written out with [u32] / [u64].
    - The memory-mapped register window is a finite map from offsets to
      32-bit values together with a chronological log of the accesses and
      barriers the driver issued.
    - Locks ([alm_lock], [mmio_lock], [reset_lock]) and [dev_dbg]/[dev_err]
      messages have no effect on the sequential behaviour and are left out. *)

From Stdlib Require Import ZArith List Bool Lia.
From stdpp Require Import base option list gmap.

Local Open Scope Z_scope.

(** ** Machine integers *)

Definition u32 (x : Z) : Z := x mod 2 ^ 32.
Definition u64 (x : Z) : Z := x mod 2 ^ 64.

(** [(s64) x] for a 64-bit pattern [x]. *)
Definition s64 (x : Z) : Z :=
  if u64 x <? 2 ^ 63 then u64 x else u64 x - 2 ^ 64.

(** [~x] on a [u64]. *)
Definition not64 (x : Z) : Z := u64 (Z.lnot x).
(** [~x] on a [u32]. *)
Definition not32 (x : Z) : Z := u32 (Z.lnot x).

(** ** Constants of the headers

    [plx_hw.h], [plx_device.h] and [vca_common.h] are outside this
    development; the constants [plx_hw.c] takes from them are the fields of
    this class, and every statement below holds for all values of them that
    meet its hypotheses. *)

Class plx_consts := {
  PLX_A_LUT_MAX_ARRAY : Z;
  PLX_A_LUT_ARRAY_OFFSET : Z;
  PLX_A_LUT_PERMISSION_SUBARRAY_OFFSET : Z;
  PLX_A_LUT_HIGHER_RE_MAP_SUBARRAY_OFFSET : Z;
  PLX_A_LUT_LOWER_RE_MAP_SUBARRAY_OFFSET : Z;
  PLX_A_LUT_PERMISSION_READ_ENABLE : Z;
  PLX_A_LUT_PERMISSION_WRITE_ENABLE : Z;
  PLX_SPAD0 : Z;
  PLX_DPLO_SPAD : Z;
  PLX_DPHI_SPAD : Z;
  VCA_VV : Z;
  VCA_MV : Z;
  PLX_VV_CPU_NUMS : Z;
  PLX_MV_CPU_NUMS : Z;
  (** [plx_reset_bits[0]] and [plx_reset_bits[1]] *)
  plx_reset_bits_vv : list Z;
  plx_reset_bits_mv : list Z;
  (** [msecs_to_jiffies(RESET_GRACE_PERIOD_MS)] *)
  RESET_GRACE_PERIOD_JIFFIES : Z
}.

Definition EEXIST : Z := 17.
Definition ENOMEM : Z := 12.
Definition ENOSPC : Z := 28.
Definition GPIO_REG : Z := 0x624.
Definition MARGIN_TIME : Z := 8.
Definition RESET_PULSE_TIME : Z := 16 + MARGIN_TIME.

(** ** The register window *)

Inductive event :=
| MmioWrite (val off : Z)
| MmioRead (off : Z)
| Wmb
| Mb
| LbpResetStart (card cpu : Z)
| LbpResetStop (card cpu : Z)
| Sleep (ms : Z).

#[global] Instance event_eq_dec : EqDecision event.
Proof. solve_decision. Defined.

Record plx_mw := {
  regs : gmap Z Z;
  log : list event
}.

(** A register that was never written reads as [0]. *)
Definition reg_val (mw : plx_mw) (off : Z) : Z := default 0 (regs mw !! off).

Definition plx_mmio_write (mw : plx_mw) (val off : Z) : plx_mw :=
  {| regs := <[off := val]> (regs mw);
     log := log mw ++ [MmioWrite val off] |}.

Definition plx_mmio_read (mw : plx_mw) (off : Z) : Z * plx_mw :=
  (reg_val mw off, {| regs := regs mw; log := log mw ++ [MmioRead off] |}).

Definition barrier (e : event) (mw : plx_mw) : plx_mw :=
  {| regs := regs mw; log := log mw ++ [e] |}.

(** ** The segment manager interface

    [plx_alm.c] is outside this development.  The driver uses the manager
    through two fields and three calls, gathered here.  [alm_add_entry]
    returns the error code and the two out-parameters [segment_id] and
    [segments_num]; [alm_del_entry] returns the out-parameters
    [start_segment] and [segments_num]. *)

Class plx_alm_ops (alm : Type) := {
  alm_segment_size : alm -> Z;
  alm_segments_num : alm -> Z;
  plx_alm_add_entry : alm -> Z -> Z -> Z * Z * Z * alm;
  plx_alm_del_entry : alm -> Z -> Z * Z * alm;
  plx_alm_reset : alm -> alm
}.

Section Driver.
Context {C : plx_consts} {alm : Type} {M : plx_alm_ops alm}.

Record plx_device := {
  card_id : Z;
  card_type : Z;
  reg_base : Z;
  a_lut_array_base : Z;
  a_lut_manager : alm;
  mmio : plx_mw
}.

Definition with_mmio (xdev : plx_device) (mw : plx_mw) : plx_device :=
  {| card_id := card_id xdev; card_type := card_type xdev;
     reg_base := reg_base xdev; a_lut_array_base := a_lut_array_base xdev;
     a_lut_manager := a_lut_manager xdev; mmio := mw |}.

Definition with_alm (xdev : plx_device) (a : alm) : plx_device :=
  {| card_id := card_id xdev; card_type := card_type xdev;
     reg_base := reg_base xdev; a_lut_array_base := a_lut_array_base xdev;
     a_lut_manager := a; mmio := mmio xdev |}.

(** [plx_get_a_lut_entry_offset]: [sizeof(u32)] is 4; the sum is returned
    as an [unsigned int]. *)
Definition plx_get_a_lut_entry_offset (idx : Z) : Z :=
  let array_offset :=
    if PLX_A_LUT_MAX_ARRAY <=? idx then PLX_A_LUT_ARRAY_OFFSET else 0 in
  u32 (array_offset + (idx mod PLX_A_LUT_MAX_ARRAY) * 4).

(** The sub-field registers of entry [idx] of the table at [base], each an
    [u32] sum as in the callers. *)
Definition lower_re_map_reg (base idx : Z) : Z :=
  u32 (u32 (base + plx_get_a_lut_entry_offset idx)
       + PLX_A_LUT_LOWER_RE_MAP_SUBARRAY_OFFSET).
Definition higher_re_map_reg (base idx : Z) : Z :=
  u32 (u32 (base + plx_get_a_lut_entry_offset idx)
       + PLX_A_LUT_HIGHER_RE_MAP_SUBARRAY_OFFSET).
Definition permission_reg (base idx : Z) : Z :=
  u32 (u32 (base + plx_get_a_lut_entry_offset idx)
       + PLX_A_LUT_PERMISSION_SUBARRAY_OFFSET).

(** [plx_a_lut_clear]: the manager is reset first, then the loop runs [i]
    from [0] while [i < segments_num], writing zero to the three sub-fields
    of every entry.  [entry_offset] is the [unsigned int] sum
    [plx_get_a_lut_entry_offset(i) + offset]. *)
Fixpoint a_lut_clear_loop (count : nat) (i offset : Z) (mw : plx_mw) : plx_mw :=
  match count with
  | O => mw
  | S count' =>
      let entry_offset := u32 (plx_get_a_lut_entry_offset i + offset) in
      let mw := plx_mmio_write mw 0
                  (u32 (entry_offset + PLX_A_LUT_PERMISSION_SUBARRAY_OFFSET)) in
      let mw := plx_mmio_write mw 0
                  (u32 (entry_offset + PLX_A_LUT_HIGHER_RE_MAP_SUBARRAY_OFFSET)) in
      let mw := plx_mmio_write mw 0
                  (u32 (entry_offset + PLX_A_LUT_LOWER_RE_MAP_SUBARRAY_OFFSET)) in
      a_lut_clear_loop count' (i + 1) offset mw
  end.

Definition plx_a_lut_clear (xdev : plx_device) (offset : Z) : plx_device :=
  let a := plx_alm_reset (a_lut_manager xdev) in
  with_mmio (with_alm xdev a)
    (a_lut_clear_loop (Z.to_nat (alm_segments_num a)) 0 offset (mmio xdev)).

(** The body of the programming loop of [plx_add_a_lut_entry] for entry [i],
    and the loop itself.  The C loop runs [i] from [segment_id] while
    [i < segment_id + segments_num], the bound being an [u32] sum; [count] is
    the number of iterations that makes.  The loop state is
    [(last_permission_reg, addr_masked)]. *)
Definition a_lut_program_entry (base i addr_masked : Z) (mw : plx_mw) : plx_mw :=
  let entry_offset := u32 (base + plx_get_a_lut_entry_offset i) in
  let lower_re_map_offset :=
    u32 (entry_offset + PLX_A_LUT_LOWER_RE_MAP_SUBARRAY_OFFSET) in
  let higher_re_map_offset :=
    u32 (entry_offset + PLX_A_LUT_HIGHER_RE_MAP_SUBARRAY_OFFSET) in
  let permission_offset :=
    u32 (entry_offset + PLX_A_LUT_PERMISSION_SUBARRAY_OFFSET) in
  let mw := plx_mmio_write mw (u32 (Z.shiftr addr_masked 32))
              higher_re_map_offset in
  let mw := plx_mmio_write mw (u32 addr_masked) lower_re_map_offset in
  let mw := barrier Wmb mw in
  plx_mmio_write mw
    (Z.lor PLX_A_LUT_PERMISSION_READ_ENABLE PLX_A_LUT_PERMISSION_WRITE_ENABLE)
    permission_offset.

Fixpoint a_lut_program_loop (count : nat) (base i addr_masked segment_size : Z)
    (last_permission_reg : Z) (mw : plx_mw) : Z * plx_mw :=
  match count with
  | O => (last_permission_reg, mw)
  | S count' =>
      let mw := a_lut_program_entry base i addr_masked mw in
      a_lut_program_loop count' base (i + 1)
        (u64 (addr_masked + segment_size)) segment_size
        (permission_reg base i) mw
  end.

(** Number of iterations of [for (i = s; i < s + n; i++)] with the bound
    computed in [u32]. *)
Definition loop_count (s n : Z) : nat := Z.to_nat (u32 (s + n) - s).

(** [plx_add_a_lut_entry].  Returns the return code, the value stored to
    [*addr_out] (if the store is reached) and the device. *)
Definition plx_add_a_lut_entry (xdev : plx_device) (addr size : Z)
    : Z * option Z * plx_device :=
  let translation_mask := u64 (alm_segment_size (a_lut_manager xdev) - 1) in
  let addr_masked := Z.land addr (not64 translation_mask) in
  let '(err, segment_id, segments_num, a) :=
    plx_alm_add_entry (a_lut_manager xdev) addr size in
  let xdev := with_alm xdev a in
  if negb (err =? 0) && negb (err =? - EEXIST) then (- ENOMEM, None, xdev)
  else
    let mw :=
      if err =? 0 then
        let '(last_permission_reg, mw) :=
          a_lut_program_loop (loop_count segment_id segments_num)
            (a_lut_array_base xdev) segment_id addr_masked
            (alm_segment_size a) 0 (mmio xdev) in
        let mw := barrier Mb mw in
        if last_permission_reg =? 0 then mw
        else snd (plx_mmio_read mw last_permission_reg)
      else mmio xdev in
    (0,
     Some (u64 (segment_id * alm_segment_size a
                + Z.land addr translation_mask)),
     with_mmio xdev mw).

(** The clearing loop of [plx_del_a_lut_entry]. *)
Fixpoint a_lut_del_loop (count : nat) (base i : Z) (mw : plx_mw) : plx_mw :=
  match count with
  | O => mw
  | S count' =>
      let permission_offset :=
        u32 (plx_get_a_lut_entry_offset i
             + PLX_A_LUT_PERMISSION_SUBARRAY_OFFSET) in
      a_lut_del_loop count' base (i + 1)
        (plx_mmio_write mw 0 (u32 (base + permission_offset)))
  end.

(** [plx_del_a_lut_entry].  [segment_id] is computed by a division before the
    range check; with a zero [segment_size] the division traps and there is
    no result ([None]). *)
Definition plx_del_a_lut_entry (xdev : plx_device) (addr : Z)
    : option plx_device :=
  let a := a_lut_manager xdev in
  if alm_segment_size a =? 0 then None
  else
    let segment_id := u32 (addr / alm_segment_size a) in
    if u64 (alm_segments_num a * alm_segment_size a) <=? addr then Some xdev
    else
      let '(start_segment, segments_num, a') :=
        plx_alm_del_entry a segment_id in
      let xdev := with_alm xdev a' in
      if segments_num =? 0 then Some xdev
      else
        Some (with_mmio xdev
                (a_lut_del_loop (loop_count start_segment segments_num)
                   (a_lut_array_base xdev) start_segment (mmio xdev))).

(** ** Scratchpads *)

Definition spad_reg (xdev : plx_device) (idx : Z) : Z :=
  u32 (reg_base xdev + PLX_SPAD0 + idx * 4).

Definition plx_write_spad (xdev : plx_device) (idx val : Z) : plx_device :=
  with_mmio xdev (plx_mmio_write (mmio xdev) val (spad_reg xdev idx)).

Definition plx_read_spad (xdev : plx_device) (idx : Z) : Z * plx_device :=
  let '(val, mw) := plx_mmio_read (mmio xdev) (spad_reg xdev idx) in
  (val, with_mmio xdev mw).

(** [plx_set_dp_addr]: the [u64] argument is converted to the [u32]
    parameter of [plx_write_spad] at both calls. *)
Definition plx_set_dp_addr (xdev : plx_device) (dp_addr : Z) : plx_device :=
  let xdev := plx_write_spad xdev PLX_DPLO_SPAD (u32 dp_addr) in
  plx_write_spad xdev PLX_DPHI_SPAD (u32 (Z.shiftr dp_addr 32)).

Definition plx_get_dp_addr (xdev : plx_device) : Z * plx_device :=
  let '(lo, xdev) := plx_read_spad xdev PLX_DPLO_SPAD in
  let '(hi, xdev) := plx_read_spad xdev PLX_DPHI_SPAD in
  (Z.lor lo (u64 (Z.shiftl hi 32)), xdev).

(** ** Card reset *)

Definition plx_get_cpu_num (xdev : plx_device) : Z :=
  if negb (Z.land (card_type xdev) VCA_VV =? 0) then PLX_VV_CPU_NUMS
  else if negb (Z.land (card_type xdev) VCA_MV =? 0) then PLX_MV_CPU_NUMS
  else 0.

(** [signal_bit] as [plx_card_reset] calls it, with [wait_start] and
    [signal_release_ts] both [NULL].  The wait of [ms] milliseconds (a
    sleep, or a wait on the completion with that timeout) is the [Sleep]
    event. *)
Definition signal_bit (mw : plx_mw) (bit offset ms : Z) : plx_mw :=
  let '(data, mw) := plx_mmio_read mw offset in
  let data := Z.land data (not32 bit) in
  let mw := plx_mmio_write mw data offset in
  let mw := barrier (Sleep ms) mw in
  let '(data, mw) := plx_mmio_read mw offset in
  let data := Z.lor data bit in
  plx_mmio_write mw data offset.

(** [time_after_eq64] and [time_before64] of [linux/jiffies.h]. *)
Definition time_after_eq64 (a b : Z) : bool := 0 <=? s64 (u64 (a - b)).
Definition time_before64 (a b : Z) : bool := s64 (u64 (a - b)) <? 0.

(** [plx_card_reset].  [contexts] is the column of [plx_contexts] the code
    reads: the [reset_ts] of the device context registered for a card and
    a cpu, with no entry where the table holds [NULL].  [t0], [t1] and [t2] are
    what the three calls of [get_jiffies_64] return, in program order. *)
Definition plx_card_reset (contexts : gmap (Z * Z) Z) (xdev : plx_device)
    (cpu_id : Z) (t0 t1 t2 : Z) : gmap (Z * Z) Z * plx_device :=
  if (cpu_id <? 0) || (plx_get_cpu_num xdev <=? cpu_id) then (contexts, xdev)
  else
    match contexts !! (card_id xdev, cpu_id) with
    | None => (contexts, xdev)
    | Some reset_ts =>
        let time := t0 in
        if time_after_eq64 time reset_ts
           && time_before64 time (u64 (reset_ts + RESET_GRACE_PERIOD_JIFFIES))
        then (contexts, xdev)
        else
          let contexts := <[(card_id xdev, cpu_id) := t1]> contexts in
          let card_bits :=
            if negb (Z.land (card_type xdev) VCA_VV =? 0)
            then Some plx_reset_bits_vv
            else if negb (Z.land (card_type xdev) VCA_MV =? 0)
            then Some plx_reset_bits_mv
            else None in
          match card_bits with
          | None => (contexts, xdev)
          | Some card_bits =>
              let bit := nth (Z.to_nat cpu_id) card_bits 0 in
              let mw := barrier (LbpResetStart (card_id xdev) cpu_id)
                          (mmio xdev) in
              let mw := signal_bit mw bit GPIO_REG RESET_PULSE_TIME in
              let contexts := <[(card_id xdev, cpu_id) := t2]> contexts in
              let mw := barrier (Sleep 100) mw in
              let mw := barrier (LbpResetStop (card_id xdev) cpu_id) mw in
              (contexts, with_mmio xdev mw)
          end
    end.

(** ** Descriptions used in the statements *)

(** The constants describe two arrays of [PLX_A_LUT_MAX_ARRAY] entries of
    four bytes each that do not overlap and lie inside the 32-bit window,
    and a table of [nsegs] entries fits in them. *)
Definition two_array_layout (nsegs : Z) : Prop :=
  0 < PLX_A_LUT_MAX_ARRAY /\
  PLX_A_LUT_MAX_ARRAY * 4 <= PLX_A_LUT_ARRAY_OFFSET /\
  PLX_A_LUT_ARRAY_OFFSET + PLX_A_LUT_MAX_ARRAY * 4 <= 2 ^ 32 /\
  nsegs <= 2 * PLX_A_LUT_MAX_ARRAY.

(** What programming entry [i] with the address [addr_masked] leaves in the
    log. *)
Definition programmed_entry_events (base i addr_masked : Z) : list event :=
  [ MmioWrite (u32 (Z.shiftr addr_masked 32)) (higher_re_map_reg base i);
    MmioWrite (u32 addr_masked) (lower_re_map_reg base i);
    Wmb;
    MmioWrite (Z.lor PLX_A_LUT_PERMISSION_READ_ENABLE
                     PLX_A_LUT_PERMISSION_WRITE_ENABLE)
              (permission_reg base i) ].

(** The order the specification gives for one entry: the write barrier
    between the two halves of the address. *)
Definition spec_entry_events (base i addr_masked : Z) : list event :=
  [ MmioWrite (u32 (Z.shiftr addr_masked 32)) (higher_re_map_reg base i);
    Wmb;
    MmioWrite (u32 addr_masked) (lower_re_map_reg base i);
    MmioWrite (Z.lor PLX_A_LUT_PERMISSION_READ_ENABLE
                     PLX_A_LUT_PERMISSION_WRITE_ENABLE)
              (permission_reg base i) ].

(** The events of a run of [count] entries from entry [i] on, each entry
    contributing [per_entry]; the address advances by one segment per
    entry. *)
Fixpoint run_events (per_entry : Z -> Z -> Z -> list event) (count : nat)
    (base i addr_masked segment_size : Z) : list event :=
  match count with
  | O => []
  | S count' =>
      per_entry base i addr_masked
      ++ run_events per_entry count' base (i + 1)
           (u64 (addr_masked + segment_size)) segment_size
  end.

(** Zero written to the permission register of [count] entries from [i]. *)
Fixpoint cleared_permission_events (count : nat) (base i : Z) : list event :=
  match count with
  | O => []
  | S count' =>
      MmioWrite 0 (permission_reg base i)
      :: cleared_permission_events count' base (i + 1)
  end.

(** Zero written to the three sub-fields of [count] entries from [i], in the
    order of [plx_a_lut_clear]. *)
Fixpoint cleared_entry_events (count : nat) (base i : Z) : list event :=
  match count with
  | O => []
  | S count' =>
      [ MmioWrite 0 (permission_reg base i);
        MmioWrite 0 (higher_re_map_reg base i);
        MmioWrite 0 (lower_re_map_reg base i) ]
      ++ cleared_entry_events count' base (i + 1)
  end.

(** The offsets a list of events writes to. *)
Definition written_offsets (evs : list event) : list Z :=
  omap (fun e => match e with MmioWrite _ off => Some off | _ => None end) evs.

End Driver.

Arguments plx_device {alm}.

(** ** The segment manager *)

(** Modelled from the spec: the state of a segment of [plx_alm.c], which is
    outside this development.  A segment is either free or allocated
    with a reference count of at least one; an allocated segment records the
    run it belongs to (first index, length) and the masked base address the
    run maps. *)
Inductive segment :=
| FREE
| ALLOCATED (ref_count : positive) (run_start run_len : nat) (base : Z).

#[global] Instance segment_eq_dec : EqDecision segment.
Proof. solve_decision. Defined.

(** Modelled from the spec: the manager state of [plx_alm.c], a fixed segment
    size and one record per segment; [segments_num] is the number of
    records. *)
Record plx_alm := {
  segment_size : Z;
  entries : list segment
}.

Definition segments_num (a : plx_alm) : Z := Z.of_nat (length (entries a)).

Definition with_entries (a : plx_alm) (l : list segment) : plx_alm :=
  {| segment_size := segment_size a; entries := l |}.

(** Apply [f] to the [n] elements from index [s] on. *)
Definition alter_range {A} (f : A -> A) (s n : nat) (l : list A) : list A :=
  imap (fun i x => if (s <=? i)%nat && (i <? s + n)%nat then f x else x) l.

Definition segment_incr (x : segment) : segment :=
  match x with
  | FREE => FREE
  | ALLOCATED c s n b => ALLOCATED (Pos.succ c) s n b
  end.

Definition segment_decr (x : segment) : segment :=
  match x with
  | FREE => FREE
  | ALLOCATED c s n b => ALLOCATED (Pos.pred c) s n b
  end.

(** Modelled from the spec: [addr] masked down to segment granularity. *)
Definition alm_addr_masked (a : plx_alm) (addr : Z) : Z :=
  Z.land addr (not64 (u64 (segment_size a - 1))).

(** Modelled from the spec: how many contiguous segments the range
    [[addr, addr + size)] spans, counted from the masked address. *)
Definition alm_segments_needed (a : plx_alm) (addr size : Z) : nat :=
  Z.to_nat ((addr + size - alm_addr_masked a addr + segment_size a - 1)
            / segment_size a).

(** Segment [i] starts an allocated run that covers exactly [n] segments
    from the masked address [base]. *)
Definition run_matches (l : list segment) (base : Z) (n i : nat) : bool :=
  match l !! i with
  | Some (ALLOCATED _ s len b) => (s =? i)%nat && (len =? n)%nat && (b =? base)
  | _ => false
  end.

Definition find_run (l : list segment) (base : Z) (n : nat) : option nat :=
  find (run_matches l base n) (seq 0 (length l)).

Definition is_free (l : list segment) (i : nat) : bool :=
  match l !! i with
  | Some FREE => true
  | _ => false
  end.

Definition run_free (l : list segment) (n s : nat) : bool :=
  forallb (is_free l) (seq s n).

(** First fit over index order. *)
Definition first_fit (l : list segment) (n : nat) : option nat :=
  find (run_free l n) (seq 0 (length l)).

(** Modelled from the spec: [plx_alm_add_entry] of [plx_alm.c].  An
    allocated run that covers exactly the masked range gets its reference
    count incremented and the call returns [-EEXIST]; otherwise the first
    free contiguous run of the needed length is allocated with reference
    count one; with no such run the call fails with no space. *)
Definition spec_alm_add_entry (a : plx_alm) (addr size : Z)
    : Z * Z * Z * plx_alm :=
  let base := alm_addr_masked a addr in
  let n := alm_segments_needed a addr size in
  match find_run (entries a) base n with
  | Some i =>
      (- EEXIST, Z.of_nat i, Z.of_nat n,
       with_entries a (alter_range segment_incr i n (entries a)))
  | None =>
      match first_fit (entries a) n with
      | Some s =>
          (0, Z.of_nat s, Z.of_nat n,
           with_entries a
             (alter_range (fun _ => ALLOCATED 1 s n base) s n (entries a)))
      | None => (- ENOSPC, 0, 0, a)
      end
  end.

(** Modelled from the spec: [plx_alm_del_entry] of [plx_alm.c].  The
    reference count of the run containing [segment_id] is decremented; when
    it reaches zero the run's segments are marked free and the freed range is
    reported, otherwise zero freed segments are reported. *)
Definition spec_alm_del_entry (a : plx_alm) (segment_id : Z)
    : Z * Z * plx_alm :=
  match entries a !! Z.to_nat segment_id with
  | Some (ALLOCATED c s n _) =>
      if decide (c = 1%positive) then
        (Z.of_nat s, Z.of_nat n,
         with_entries a (alter_range (fun _ => FREE) s n (entries a)))
      else
        (0, 0, with_entries a (alter_range segment_decr s n (entries a)))
  | _ => (0, 0, a)
  end.

(** Modelled from the spec: [plx_alm_reset] of [plx_alm.c], all bookkeeping
    back to free. *)
Definition spec_alm_reset (a : plx_alm) : plx_alm :=
  with_entries a (replicate (length (entries a)) FREE).

#[global] Instance spec_alm_ops : plx_alm_ops plx_alm := {
  alm_segment_size := segment_size;
  alm_segments_num := segments_num;
  plx_alm_add_entry := spec_alm_add_entry;
  plx_alm_del_entry := spec_alm_del_entry;
  plx_alm_reset := spec_alm_reset
}.

(** Modelled from the spec: the invariants of the data model the manager
    keeps.  The segment size is positive, the table has fewer than [2^32]
    segments and spans less than [2^64] bytes. *)
Definition alm_wf (a : plx_alm) : Prop :=
  0 < segment_size a /\
  segments_num a < 2 ^ 32 /\
  segments_num a * segment_size a < 2 ^ 64.

(** ** A sample chip layout

    Concrete values for the constants of [plx_consts], used to run the
    functions on concrete inputs: two arrays of 128 entries 0x1000
    apart, the three sub-arrays 0x400 apart. *)
Definition sample_consts : plx_consts := {|
  PLX_A_LUT_MAX_ARRAY := 128;
  PLX_A_LUT_ARRAY_OFFSET := 0x1000;
  PLX_A_LUT_PERMISSION_SUBARRAY_OFFSET := 0x800;
  PLX_A_LUT_HIGHER_RE_MAP_SUBARRAY_OFFSET := 0x400;
  PLX_A_LUT_LOWER_RE_MAP_SUBARRAY_OFFSET := 0x0;
  PLX_A_LUT_PERMISSION_READ_ENABLE := 1;
  PLX_A_LUT_PERMISSION_WRITE_ENABLE := 2;
  PLX_SPAD0 := 0xC6C;
  PLX_DPLO_SPAD := 2;
  PLX_DPHI_SPAD := 3;
  VCA_VV := 1;
  VCA_MV := 2;
  PLX_VV_CPU_NUMS := 3;
  PLX_MV_CPU_NUMS := 3;
  plx_reset_bits_vv := [0x100; 0x200; 0x400];
  plx_reset_bits_mv := [0x1000; 0x2000; 0x4000];
  RESET_GRACE_PERIOD_JIFFIES := 1000
|}.

Definition empty_mw : plx_mw := {| regs := ∅; log := [] |}.

(** A device with four free segments of 0x1000 bytes. *)
Definition sample_alm : plx_alm :=
  {| segment_size := 0x1000; entries := replicate 4 FREE |}.

Definition sample_dev : plx_device :=
  {| card_id := 0; card_type := 2; reg_base := 0x3E000;
     a_lut_array_base := 0x38000; a_lut_manager := sample_alm;
     mmio := empty_mw |}.

(** The sample device after mapping [0x900] bytes at [0x1800]: segments 0
    and 1 hold the run. *)
Definition sample_mapped : plx_device :=
  (plx_add_a_lut_entry (C := sample_consts) sample_dev 0x1800 0x900).2.

(** The sample device after mapping a range above 4 GiB, so that the higher
    re-map register of entry 0 holds a non-zero value. *)
Definition sample_mapped_high : plx_device :=
  (plx_add_a_lut_entry (C := sample_consts) sample_dev 0x100001800 0x900).2.

(** The mapped sample device after the unmap of the translated address. *)
Definition sample_unmapped : plx_device :=
  default sample_dev
    (plx_del_a_lut_entry (C := sample_consts) sample_mapped 0x800).

(** A device whose four segments all belong to one allocated run. *)
Definition sample_full_dev : plx_device :=
  {| card_id := 0; card_type := 2; reg_base := 0x3E000;
     a_lut_array_base := 0x38000;
     a_lut_manager :=
       {| segment_size := 0x1000;
          entries := replicate 4 (ALLOCATED 1 0 4 0x10000) |};
     mmio := empty_mw |}.

(** ** Further functions of [plx_hw.c] *)

(** Further constants of the headers, as [plx_consts]. *)
Class plx_gpio_consts := {
  PLX_RID_LUT_ENABLE : Z;
  PLX_RID_LUT_ENABLE_1 : Z;
  (** [plx_power_button_bits] and [plx_bios_rcv_bits] *)
  plx_power_button_bits : list Z;
  plx_bios_rcv_bits : list Z;
  PLX_CARD_RESET_BIT : Z;
  PLX_MV_DEF_GPIO_VAL : Z;
  (** [msecs_to_jiffies(POWER_GRACE_PERIOD_MS)] *)
  POWER_GRACE_PERIOD_JIFFIES : Z
}.

Definition EINVAL : Z := 22.
Definition POWER_OFF_HOLD_TIME : Z := 5200 + MARGIN_TIME.
Definition POWER_OFF_PULSE_TIME : Z := 200 + MARGIN_TIME.
Definition GPIO_DEF_WAIT_TIME : Z := 500 + MARGIN_TIME.

(** [_plx_get_reg_base], an [u32] expression. *)
Definition _plx_get_reg_base (link_side port_id : Z) : Z :=
  u32 (0x3E000 - port_id * 0x2000 + link_side * 0x1000).

(** [plx_hw_init], the two fields it takes from the configuration dword
    read at [PLX_PORT_ID]: [link_side = !!(val & (1 << 31))] and
    [port_id = val & 0x1]; and the register bases it derives from them,
    [reg_base] and [reg_base_peer]. *)
Definition hw_link_side (val : Z) : Z :=
  if Z.land val (2 ^ 31) =? 0 then 0 else 1.
Definition hw_port_id (val : Z) : Z := Z.land val 1.
Definition hw_reg_base (val : Z) : Z :=
  _plx_get_reg_base (hw_link_side val) (hw_port_id val).
Definition hw_reg_base_peer (val : Z) : Z :=
  _plx_get_reg_base (if hw_link_side val =? 0 then 1 else 0) (hw_port_id val).

Section DriverMore.
Context {C : plx_consts} {G : plx_gpio_consts} {alm : Type} {M : plx_alm_ops alm}.
Implicit Types xdev : plx_device (alm := alm).

(** [plx_rid_lut]: the arguments are [u8], the expression is evaluated in
    [int] and returned as [u32]. *)
Definition plx_rid_lut (root_port_bus root_port_dev
                        root_complex_bus root_complex_dev : Z) : Z :=
  u32 (Z.lor (Z.lor (Z.lor (Z.lor (Z.shiftl root_port_bus 24)
                                  (Z.shiftl (Z.land root_port_dev 0x0f) 19))
                           (Z.shiftl root_complex_bus 8))
                    (Z.shiftl (Z.land root_complex_dev 0x0f) 3))
             PLX_RID_LUT_ENABLE).

(** [plx_rid_lut_dma]. *)
Definition plx_rid_lut_dma (dma_bus dma_dev : Z) : Z :=
  u32 (Z.lor (Z.lor (Z.shiftl dma_bus 8)
                    (Z.shiftl (Z.land dma_dev 0x0f) 3))
             PLX_RID_LUT_ENABLE_1).

(** [_set_bit] and [_clear_bit]: read, modify, write of one register. *)
Definition _set_bit (mw : plx_mw) (bit offset : Z) : plx_mw :=
  let '(data, mw) := plx_mmio_read mw offset in
  let data := Z.lor data bit in
  plx_mmio_write mw data offset.

Definition _clear_bit (mw : plx_mw) (bit offset : Z) : plx_mw :=
  let '(data, mw) := plx_mmio_read mw offset in
  let data := Z.land data (not32 bit) in
  plx_mmio_write mw data offset.

(** [plx_turn_rcv_mode].  [cpu_id] indexes [plx_bios_rcv_bits] without a
    check; an index outside the table has no result ([None]). *)
Definition plx_turn_rcv_mode xdev (cpu_id : Z) (turn_on : bool)
    : option plx_device :=
  if negb (Z.land (card_type xdev) VCA_MV =? 0) then
    match plx_bios_rcv_bits !! Z.to_nat cpu_id with
    | None => None
    | Some bit =>
        Some (with_mmio xdev
                (if turn_on then _clear_bit (mmio xdev) bit GPIO_REG
                 else _set_bit (mmio xdev) bit GPIO_REG))
    end
  else Some xdev.

Definition plx_enable_bios_recovery_mode xdev (cpu_id : Z)
    : option plx_device :=
  if negb (Z.land (card_type xdev) VCA_MV =? 0)
  then plx_turn_rcv_mode xdev cpu_id true
  else Some xdev.

Definition plx_disable_bios_recovery_mode xdev (cpu_id : Z)
    : option plx_device :=
  if negb (Z.land (card_type xdev) VCA_MV =? 0)
  then plx_turn_rcv_mode xdev cpu_id false
  else Some xdev.

(** [plx_init_vca_g2_gpios]. *)
Definition plx_init_vca_g2_gpios xdev : plx_device :=
  let '(data, mw) := plx_mmio_read (mmio xdev) GPIO_REG in
  if Z.land data PLX_CARD_RESET_BIT =? 0 then
    let data := PLX_MV_DEF_GPIO_VAL in
    let mw := plx_mmio_write mw data GPIO_REG in
    with_mmio xdev (barrier (Sleep GPIO_DEF_WAIT_TIME) mw)
  else with_mmio xdev mw.

(** [signal_bit] with a non-[NULL] [signal_release_ts]: the timestamp is
    what [get_jiffies_64] returns at the release, [t].  Signalling
    [wait_start] has no effect on registers or timestamps and is left
    out. *)
Definition signal_bit_release (mw : plx_mw) (bit offset ms t : Z)
    : plx_mw * Z :=
  let '(data, mw) := plx_mmio_read mw offset in
  let data := Z.land data (not32 bit) in
  let mw := plx_mmio_write mw data offset in
  let mw := barrier (Sleep ms) mw in
  let signal_release_ts := t in
  let '(data, mw) := plx_mmio_read mw offset in
  let data := Z.lor data bit in
  (plx_mmio_write mw data offset, signal_release_ts).

(** [plx_card_check_power_button_state].  [power_ts] is the array
    [xdev->power_ts], zero where nothing was stored; [time] is what
    [get_jiffies_64] returns where the code calls it. *)
Definition plx_card_check_power_button_state xdev (power_ts : gmap Z Z)
    (cpu_id time : Z) : Z * plx_device :=
  if negb (Z.land (card_type xdev) VCA_MV =? 0) then
    if (cpu_id <? 0) || (plx_get_cpu_num xdev <=? cpu_id)
    then (- EINVAL, xdev)
    else
      let bit := nth (Z.to_nat cpu_id) plx_power_button_bits 0 in
      let '(data, mw) := plx_mmio_read (mmio xdev) GPIO_REG in
      let xdev := with_mmio xdev mw in
      if Z.land data bit =? 0 then (1, xdev)
      else
        let ts := default 0 (power_ts !! cpu_id) in
        if time_after_eq64 time ts
           && time_before64 time (u64 (ts + POWER_GRACE_PERIOD_JIFFIES))
        then (2, xdev)
        else (0, xdev)
  else if Z.land (card_type xdev) VCA_VV =? 0 then (- EINVAL, xdev)
  else (0, xdev).

(** [plx_card_press_power_button]; [t] is the reading of the clock at the
    release of the button. *)
Definition plx_card_press_power_button xdev (power_ts : gmap Z Z)
    (cpu_id : Z) (hold : bool) (t : Z) : gmap Z Z * plx_device :=
  if negb (Z.land (card_type xdev) VCA_MV =? 0) then
    if (cpu_id <? 0) || (plx_get_cpu_num xdev <=? cpu_id)
    then (power_ts, xdev)
    else
      let bit := nth (Z.to_nat cpu_id) plx_power_button_bits 0 in
      let '(mw, ts) :=
        signal_bit_release (mmio xdev) bit GPIO_REG
          (if hold then POWER_OFF_HOLD_TIME else POWER_OFF_PULSE_TIME) t in
      (<[cpu_id := ts]> power_ts, with_mmio xdev mw)
  else (power_ts, xdev).

(** [plx_ioremap].  [a_lut] is [xdev->a_lut] and [aper_va] is
    [xdev->aper.va]; pointers are 64-bit addresses, [NULL] is [0].
    [pa_out] starts as [pa] and is overwritten by a successful
    [plx_add_a_lut_entry]. *)
Definition plx_ioremap xdev (a_lut : bool) (aper_va pa len : Z)
    : Z * plx_device :=
  if a_lut then
    let '(rc, addr_out, xdev) := plx_add_a_lut_entry xdev pa len in
    if negb (rc =? 0) then (0, xdev)
    else (u64 (aper_va + default pa addr_out), xdev)
  else (u64 (aper_va + pa), xdev).

(** [plx_iounmap]. *)
Definition plx_iounmap xdev (a_lut : bool) (aper_va va : Z)
    : option plx_device :=
  let pa := u64 (va - aper_va) in
  if a_lut then plx_del_a_lut_entry xdev pa else Some xdev.

(** The registers after replaying the writes of a list of events. *)
Definition apply_writes (evs : list event) (r : gmap Z Z) : gmap Z Z :=
  foldl (fun r e => match e with MmioWrite v off => <[off := v]> r | _ => r end)
        r evs.

End DriverMore.

(** ** EEPROM image validation *)

(** Constants of the EEPROM format, from the headers. *)
Class plx_eep_consts := {
  PLX_EEP_START_CRC_OFFSET : Z;
  PLX_EEP_CRC_LENGTH_BYTE : Z;
  PLX_EEP_CONST_CRC_XOR_VALUE : Z;
  PLX_EEP_HEADER_LENGTH_BYTE : Z;
  PLX_EEP_CONFIGURATION_ALIGNMENT_BYTE : Z;
  PLX_EEP_VALIDATION_HEADER : Z
}.

Inductive plx_eep_retval :=
| PLX_EEP_STATUS_OK
| PLX_EEP_INTERNAL_ERROR
| PLX_EEP_TIMEOUT.

(** The image [eeprom_data] is a list of bytes; loads are little-endian, as
    on the hosts the driver is built for.  A byte outside the list reads as
    zero. *)
Definition load8 (data : list Z) (off : Z) : Z := nth (Z.to_nat off) data 0.
Definition load16 (data : list Z) (off : Z) : Z :=
  load8 data off + 2 ^ 8 * load8 data (off + 1).
Definition load32 (data : list Z) (off : Z) : Z :=
  load16 data off + 2 ^ 16 * load16 data (off + 2).

Section Eeprom.
Context {E : plx_eep_consts}.

(** One turn of the inner loop of [eeprom_check_crc], for bit [i]. *)
Definition crc_bit_step (crc_calculated next_crc_value i : Z) : Z :=
  let xor_value :=
    Z.land (Z.lxor crc_calculated (u32 (Z.shiftl next_crc_value i))) (2 ^ 31) in
  let xor_value :=
    if xor_value =? 0 then 0 else PLX_EEP_CONST_CRC_XOR_VALUE in
  u32 (Z.lxor (u32 (Z.shiftl crc_calculated 1)) xor_value).

(** The inner loop, [i] from 0 to 31. *)
Definition crc_word (crc_calculated next_crc_value : Z) : Z :=
  fold_left (fun crc i => crc_bit_step crc next_crc_value (Z.of_nat i))
            (seq 0 32) crc_calculated.

(** The outer loop of [eeprom_check_crc]: [count] turns from [crc_offset]
    on, four bytes each, the last one reading two bytes when exactly two
    are left before [crc_end_offset].  The inner loop is the argument
    [word]. *)
Fixpoint crc_loop_with (word : Z -> Z -> Z) (count : nat) (eeprom_data : list Z)
    (crc_offset crc_end_offset crc_calculated : Z) : Z :=
  match count with
  | O => crc_calculated
  | S count' =>
      let next_crc_value :=
        if crc_end_offset - crc_offset =? 2
        then load16 eeprom_data crc_offset
        else load32 eeprom_data crc_offset in
      crc_loop_with word count' eeprom_data (crc_offset + 4) crc_end_offset
        (word crc_calculated next_crc_value)
  end.

Definition crc_loop : nat -> list Z -> Z -> Z -> Z -> Z :=
  crc_loop_with crc_word.

(** Number of turns of [for (o = s; o < e; o += 4)]. *)
Definition crc_loop_count (s e : Z) : nat := Z.to_nat ((e - s + 3) / 4).

(** The CRC [eeprom_check_crc] computes, starting from [~0U]. *)
Definition eeprom_calc_crc (eeprom_data : list Z) (eeprom_size : Z) : Z :=
  let crc_end_offset := u32 (eeprom_size - PLX_EEP_CRC_LENGTH_BYTE) in
  crc_loop (crc_loop_count PLX_EEP_START_CRC_OFFSET crc_end_offset)
    eeprom_data PLX_EEP_START_CRC_OFFSET crc_end_offset (2 ^ 32 - 1).

(** [eeprom_check_crc]. *)
Definition eeprom_check_crc (eeprom_data : list Z) (eeprom_size : Z)
    : plx_eep_retval :=
  let crc_end_offset := u32 (eeprom_size - PLX_EEP_CRC_LENGTH_BYTE) in
  let crc_calculated := eeprom_calc_crc eeprom_data eeprom_size in
  let crc_value := load32 eeprom_data crc_end_offset in
  if crc_calculated =? crc_value then PLX_EEP_STATUS_OK
  else PLX_EEP_INTERNAL_ERROR.

(** [eeprom_validate].  The header is one byte of signature, one byte of
    flags and the 16-bit configuration size. *)
Definition eeprom_validate (eeprom_data : list Z) (eeprom_size : Z)
    : plx_eep_retval :=
  let validation_signature := load8 eeprom_data 0 in
  let configuration_size := load16 eeprom_data 2 in
  if eeprom_size <=? PLX_EEP_HEADER_LENGTH_BYTE + PLX_EEP_CRC_LENGTH_BYTE
  then PLX_EEP_INTERNAL_ERROR
  else if negb (configuration_size mod PLX_EEP_CONFIGURATION_ALIGNMENT_BYTE =? 0)
  then PLX_EEP_INTERNAL_ERROR
  else if negb (u64 (eeprom_size - PLX_EEP_HEADER_LENGTH_BYTE
                     - PLX_EEP_CRC_LENGTH_BYTE) =? configuration_size)
  then PLX_EEP_INTERNAL_ERROR
  else if negb (validation_signature =? PLX_EEP_VALIDATION_HEADER)
  then PLX_EEP_INTERNAL_ERROR
  else eeprom_check_crc eeprom_data eeprom_size.

(** The four bytes of a 32-bit value, least significant first. *)
Definition le32 (v : Z) : list Z :=
  [v mod 2 ^ 8; (v / 2 ^ 8) mod 2 ^ 8; (v / 2 ^ 16) mod 2 ^ 8;
   (v / 2 ^ 24) mod 2 ^ 8].

(** An image laid out as [plx_update_eeprom] documents it: the header, the
    configuration and the CRC of what precedes it. *)
Definition eeprom_image (flags : Z) (config : list Z) : list Z :=
  let size := Z.of_nat (length config) in
  let body :=
    [PLX_EEP_VALIDATION_HEADER; flags; size mod 2 ^ 8; (size / 2 ^ 8) mod 2 ^ 8]
    ++ config in
  body ++ le32 (eeprom_calc_crc body (Z.of_nat (length body) + 4)).

End Eeprom.

Definition sample_eep_consts : plx_eep_consts := {|
  PLX_EEP_START_CRC_OFFSET := 0;
  PLX_EEP_CRC_LENGTH_BYTE := 4;
  PLX_EEP_CONST_CRC_XOR_VALUE := 0xDB710641;
  PLX_EEP_HEADER_LENGTH_BYTE := 4;
  PLX_EEP_CONFIGURATION_ALIGNMENT_BYTE := 6;
  PLX_EEP_VALIDATION_HEADER := 0x5A
|}.

(** Sample values of the further constants. *)
Definition sample_gpio_consts : plx_gpio_consts := {|
  PLX_RID_LUT_ENABLE := 0x10001;
  PLX_RID_LUT_ENABLE_1 := 0x1;
  plx_power_button_bits := [0x10; 0x20; 0x40];
  plx_bios_rcv_bits := [0x10000; 0x20000; 0x40000];
  PLX_CARD_RESET_BIT := 0x8;
  PLX_MV_DEF_GPIO_VAL := 0x7777F;
  POWER_GRACE_PERIOD_JIFFIES := 2000
|}.

(** The sample device on a card that is neither VV nor MV. *)
Definition sample_unknown_dev : plx_device :=
  {| card_id := 0; card_type := 0; reg_base := 0x3E000;
     a_lut_array_base := 0x38000; a_lut_manager := sample_alm;
     mmio := empty_mw |}.

(** A configuration of one six-byte entry. *)
Definition sample_config : list Z := [0x10; 0x02; 0xEF; 0xBE; 0xAD; 0xDE].

(** * Properties *)

(** ** Machine integers *)

Lemma u32_small x : 0 <= x < 2 ^ 32 -> u32 x = x.
Proof. intros; unfold u32; now apply Z.mod_small. Qed.

Lemma u64_small x : 0 <= x < 2 ^ 64 -> u64 x = x.
Proof. intros; unfold u64; now apply Z.mod_small. Qed.

Lemma u32_range x : 0 <= u32 x < 2 ^ 32.
Proof. unfold u32; apply Z.mod_pos_bound; lia. Qed.

Lemma u64_range x : 0 <= u64 x < 2 ^ 64.
Proof. unfold u64; apply Z.mod_pos_bound; lia. Qed.

Lemma u32_add_idemp_l x y : u32 (u32 x + y) = u32 (x + y).
Proof. unfold u32; apply Zplus_mod_idemp_l. Qed.

Lemma u32_add_idemp_r x y : u32 (x + u32 y) = u32 (x + y).
Proof. unfold u32; apply Zplus_mod_idemp_r. Qed.

Lemma land_le_l a b : 0 <= a -> Z.land a b <= a.
Proof.
  intros Ha. pose proof (Z.sub_land_same_l a b) as E.
  assert (0 <= Z.land a (Z.lnot b)) by (apply Z.land_nonneg; now left).
  lia.
Qed.

Lemma land_le_r a b : 0 <= b -> Z.land a b <= b.
Proof. intros; rewrite Z.land_comm; now apply land_le_l. Qed.

(** ** The register window *)

Lemma reg_val_write_eq mw v off : reg_val (plx_mmio_write mw v off) off = v.
Proof. unfold reg_val, plx_mmio_write; simpl. now rewrite lookup_insert_eq. Qed.

Lemma reg_val_write_ne mw v off off' :
  off <> off' -> reg_val (plx_mmio_write mw v off) off' = reg_val mw off'.
Proof.
  intros; unfold reg_val, plx_mmio_write; simpl. now rewrite lookup_insert_ne.
Qed.

Section DriverFacts.
Context {C : plx_consts} {alm : Type} {M : plx_alm_ops alm}.
Implicit Types xdev : plx_device (alm := alm).

(** ** Entry offsets *)

Lemma entry_offset_first idx :
  0 < PLX_A_LUT_MAX_ARRAY -> PLX_A_LUT_MAX_ARRAY * 4 <= 2 ^ 32 ->
  0 <= idx < PLX_A_LUT_MAX_ARRAY ->
  plx_get_a_lut_entry_offset idx = idx * 4.
Proof.
  intros Hpos Hfit Hidx. unfold plx_get_a_lut_entry_offset.
  destruct (Z.leb_spec PLX_A_LUT_MAX_ARRAY idx); [lia|].
  rewrite Z.mod_small by lia. apply u32_small; lia.
Qed.

Lemma entry_offset_second idx :
  0 < PLX_A_LUT_MAX_ARRAY -> 0 <= PLX_A_LUT_ARRAY_OFFSET ->
  PLX_A_LUT_ARRAY_OFFSET + PLX_A_LUT_MAX_ARRAY * 4 <= 2 ^ 32 ->
  PLX_A_LUT_MAX_ARRAY <= idx ->
  plx_get_a_lut_entry_offset idx =
  PLX_A_LUT_ARRAY_OFFSET + (idx mod PLX_A_LUT_MAX_ARRAY) * 4.
Proof.
  intros Hpos Hoff Hfit Hidx. unfold plx_get_a_lut_entry_offset.
  destruct (Z.leb_spec PLX_A_LUT_MAX_ARRAY idx); [|lia].
  pose proof (Z.mod_pos_bound idx PLX_A_LUT_MAX_ARRAY Hpos).
  apply u32_small; lia.
Qed.

(** Past the second array the offsets repeat: the function serves two
    arrays and no more. *)
Lemma entry_offset_repeats_after_two_arrays :
  0 < PLX_A_LUT_MAX_ARRAY ->
  plx_get_a_lut_entry_offset (2 * PLX_A_LUT_MAX_ARRAY)
  = plx_get_a_lut_entry_offset PLX_A_LUT_MAX_ARRAY.
Proof.
  intros Hpos. unfold plx_get_a_lut_entry_offset.
  destruct (Z.leb_spec PLX_A_LUT_MAX_ARRAY (2 * PLX_A_LUT_MAX_ARRAY)); [|lia].
  destruct (Z.leb_spec PLX_A_LUT_MAX_ARRAY PLX_A_LUT_MAX_ARRAY); [|lia].
  rewrite Z.mul_comm, Z.mod_mul, Z.mod_same by lia. reflexivity.
Qed.

(** C3: under the two-array layout, [plx_get_a_lut_entry_offset] sends an
    index below the per-array maximum to [index * 4] in the first array, an
    index at or above it to the second-array offset plus
    [(index mod maximum) * 4], and it is injective over the indices
    [0 .. nsegs - 1] of the table. *)
Theorem entry_offset_two_arrays_injective (nsegs : Z) :
  two_array_layout nsegs ->
  (forall idx, 0 <= idx < PLX_A_LUT_MAX_ARRAY ->
     plx_get_a_lut_entry_offset idx = idx * 4) /\
  (forall idx, PLX_A_LUT_MAX_ARRAY <= idx ->
     plx_get_a_lut_entry_offset idx =
     PLX_A_LUT_ARRAY_OFFSET + (idx mod PLX_A_LUT_MAX_ARRAY) * 4) /\
  (forall i j, 0 <= i < nsegs -> 0 <= j < nsegs ->
     plx_get_a_lut_entry_offset i = plx_get_a_lut_entry_offset j -> i = j).
Proof.
  intros (Hpos & Hsep & Hfit & Hn).
  assert (Hfirst : forall idx, 0 <= idx < PLX_A_LUT_MAX_ARRAY ->
            plx_get_a_lut_entry_offset idx = idx * 4)
    by (intros; apply entry_offset_first; lia).
  assert (Hsecond : forall idx, PLX_A_LUT_MAX_ARRAY <= idx ->
            plx_get_a_lut_entry_offset idx =
            PLX_A_LUT_ARRAY_OFFSET + (idx mod PLX_A_LUT_MAX_ARRAY) * 4)
    by (intros; apply entry_offset_second; lia).
  split; [exact Hfirst|]. split; [exact Hsecond|].
  assert (Hhigh : forall idx, PLX_A_LUT_MAX_ARRAY <= idx < 2 * PLX_A_LUT_MAX_ARRAY ->
            idx mod PLX_A_LUT_MAX_ARRAY = idx - PLX_A_LUT_MAX_ARRAY).
  { intros idx Hidx.
    replace idx with ((idx - PLX_A_LUT_MAX_ARRAY) + 1 * PLX_A_LUT_MAX_ARRAY) at 1 by lia.
    rewrite Z.mod_add by lia. apply Z.mod_small; lia. }
  intros i j Hi Hj.
  destruct (Z.lt_ge_cases i PLX_A_LUT_MAX_ARRAY) as [Hil|Hih];
    destruct (Z.lt_ge_cases j PLX_A_LUT_MAX_ARRAY) as [Hjl|Hjh].
  - rewrite !Hfirst by lia. lia.
  - rewrite Hfirst, Hsecond, Hhigh by lia. lia.
  - rewrite Hsecond, Hfirst, Hhigh by lia. lia.
  - rewrite !Hsecond, !Hhigh by lia. lia.
Qed.

(** ** The loops *)

Lemma permission_reg_del base i :
  u32 (base + u32 (plx_get_a_lut_entry_offset i
                   + PLX_A_LUT_PERMISSION_SUBARRAY_OFFSET))
  = permission_reg base i.
Proof.
  unfold permission_reg. rewrite u32_add_idemp_r, u32_add_idemp_l.
  f_equal; lia.
Qed.

Lemma a_lut_program_entry_log base i addr_masked mw :
  log (a_lut_program_entry base i addr_masked mw)
  = log mw ++ programmed_entry_events base i addr_masked.
Proof.
  unfold a_lut_program_entry, programmed_entry_events; simpl.
  now rewrite <- !app_assoc.
Qed.

Lemma a_lut_program_loop_log count : forall base i addr_masked ssize last mw,
  log (snd (a_lut_program_loop count base i addr_masked ssize last mw))
  = log mw ++ run_events programmed_entry_events count base i addr_masked ssize.
Proof.
  induction count as [|count IH]; intros; simpl.
  - now rewrite app_nil_r.
  - rewrite IH, a_lut_program_entry_log. now rewrite <- app_assoc.
Qed.

Lemma a_lut_program_loop_last count : forall base i addr_masked ssize last mw,
  fst (a_lut_program_loop count base i addr_masked ssize last mw)
  = match count with
    | O => last
    | S count' => permission_reg base (i + Z.of_nat count')
    end.
Proof.
  induction count as [|count IH]; intros; simpl; [reflexivity|].
  rewrite IH. destruct count as [|count]; simpl.
  - f_equal; lia.
  - f_equal; lia.
Qed.

Lemma a_lut_del_loop_log count : forall base i mw,
  log (a_lut_del_loop count base i mw)
  = log mw ++ cleared_permission_events count base i.
Proof.
  induction count as [|count IH]; intros; simpl.
  - now rewrite app_nil_r.
  - rewrite IH, permission_reg_del; simpl. now rewrite <- app_assoc.
Qed.

Lemma a_lut_del_loop_regs count : forall base i mw off,
  off ∉ written_offsets (cleared_permission_events count base i) ->
  regs (a_lut_del_loop count base i mw) !! off = regs mw !! off.
Proof.
  induction count as [|count IH]; intros base i mw off Hoff; simpl; [reflexivity|].
  simpl in Hoff. apply not_elem_of_cons in Hoff as [Hne Hoff].
  rewrite IH by exact Hoff. simpl.
  rewrite permission_reg_del. now rewrite lookup_insert_ne.
Qed.

Lemma cleared_permission_offsets count : forall base i off,
  off ∈ written_offsets (cleared_permission_events count base i) <->
  exists j, (j < count)%nat /\ off = permission_reg base (i + Z.of_nat j).
Proof.
  induction count as [|count IH]; intros base i off; simpl.
  - split; [intros H; inversion H|intros (j & Hj & _); lia].
  - rewrite elem_of_cons, IH. split.
    + intros [->|(j & Hj & ->)].
      * exists O. split; [lia|f_equal; lia].
      * exists (S j). split; [lia|f_equal; lia].
    + intros (j & Hj & ->). destruct j as [|j].
      * left. f_equal; lia.
      * right. exists j. split; [lia|f_equal; lia].
Qed.

Lemma a_lut_del_loop_zero count : forall base i mw off,
  off ∈ written_offsets (cleared_permission_events count base i) ->
  reg_val (a_lut_del_loop count base i mw) off = 0.
Proof.
  assert (Hkeep : forall n base i mw off,
            reg_val mw off = 0 ->
            reg_val (a_lut_del_loop n base i mw) off = 0).
  { induction n as [|n IH]; intros base i mw off Hz; simpl; [exact Hz|].
    apply IH. unfold reg_val, plx_mmio_write in *; simpl.
    rewrite lookup_insert. case_decide; [reflexivity|exact Hz]. }
  induction count as [|count IH]; intros base i mw off Hoff; simpl in *.
  - inversion Hoff.
  - rewrite permission_reg_del.
    apply elem_of_cons in Hoff as [->|Hoff]; [|now apply IH].
    apply Hkeep. unfold reg_val, plx_mmio_write; simpl.
    now rewrite lookup_insert_eq.
Qed.

Lemma clear_loop_regs base i :
  u32 (u32 (plx_get_a_lut_entry_offset i + base)
       + PLX_A_LUT_PERMISSION_SUBARRAY_OFFSET) = permission_reg base i /\
  u32 (u32 (plx_get_a_lut_entry_offset i + base)
       + PLX_A_LUT_HIGHER_RE_MAP_SUBARRAY_OFFSET) = higher_re_map_reg base i /\
  u32 (u32 (plx_get_a_lut_entry_offset i + base)
       + PLX_A_LUT_LOWER_RE_MAP_SUBARRAY_OFFSET) = lower_re_map_reg base i.
Proof.
  unfold permission_reg, higher_re_map_reg, lower_re_map_reg.
  now rewrite (Z.add_comm base).
Qed.

Lemma a_lut_clear_loop_log count : forall base i mw,
  log (a_lut_clear_loop count i base mw)
  = log mw ++ cleared_entry_events count base i.
Proof.
  induction count as [|count IH]; intros; simpl.
  - now rewrite app_nil_r.
  - rewrite IH. destruct (clear_loop_regs base i) as (-> & -> & ->); simpl.
    now rewrite <- !app_assoc.
Qed.

Lemma a_lut_clear_loop_zero count : forall base i mw off,
  off ∈ written_offsets (cleared_entry_events count base i) ->
  reg_val (a_lut_clear_loop count i base mw) off = 0.
Proof.
  assert (Hkeep : forall n base i mw off,
            reg_val mw off = 0 ->
            reg_val (a_lut_clear_loop n i base mw) off = 0).
  { induction n as [|n IH]; intros base i mw off Hz; simpl; [exact Hz|].
    apply IH. unfold reg_val, plx_mmio_write in *; simpl.
    repeat (rewrite lookup_insert; case_decide; simpl; [reflexivity|]).
    exact Hz. }
  induction count as [|count IH]; intros base i mw off Hoff; simpl in *.
  - inversion Hoff.
  - destruct (clear_loop_regs base i) as (Ep & Eh & El).
    rewrite Ep, Eh, El.
    rewrite !elem_of_cons in Hoff.
    destruct Hoff as [->|[->|[->|Hoff]]]; [| | |now apply IH];
      apply Hkeep; unfold reg_val, plx_mmio_write; simpl;
      repeat (rewrite lookup_insert; case_decide; simpl; [reflexivity|]);
      congruence.
Qed.

Lemma cleared_entry_events_offsets count : forall base i k,
  (k < count)%nat ->
  permission_reg base (i + Z.of_nat k)
    ∈ written_offsets (cleared_entry_events count base i) /\
  higher_re_map_reg base (i + Z.of_nat k)
    ∈ written_offsets (cleared_entry_events count base i) /\
  lower_re_map_reg base (i + Z.of_nat k)
    ∈ written_offsets (cleared_entry_events count base i).
Proof.
  induction count as [|count IH]; intros base i k Hk; [lia|].
  simpl. destruct k as [|k].
  - replace (i + Z.of_nat 0) with i by lia.
    rewrite !elem_of_cons. intuition reflexivity.
  - destruct (IH base (i + 1) k ltac:(lia)) as (Hp & Hh & Hl).
    replace (i + Z.of_nat (S k)) with (i + 1 + Z.of_nat k) by lia.
    rewrite !elem_of_cons. intuition auto.
Qed.

Lemma loop_count_exact s n :
  0 <= s -> 0 <= n -> s + n < 2 ^ 32 -> loop_count s n = Z.to_nat n.
Proof.
  intros. unfold loop_count. rewrite u32_small by lia. f_equal; lia.
Qed.

(** ** Map *)

(** C4 (as the code has it): when the manager allocates a new run of [n]
    entries from [segment_id], [plx_add_a_lut_entry] appends to the log, for
    each entry of the run in turn, the high 32 bits of the entry's masked
    address, its low 32 bits, a write barrier and the permission word with
    read and write enable; after the run a full barrier and a read of the
    last permission register written.  This holds for every segment
    manager. *)
Theorem map_program_sequence xdev addr size segment_id n a :
  plx_alm_add_entry (a_lut_manager xdev) addr size = (0, segment_id, n, a) ->
  0 <= segment_id -> 0 < n -> segment_id + n < 2 ^ 32 ->
  permission_reg (a_lut_array_base xdev) (segment_id + n - 1) <> 0 ->
  exists out xdev',
    plx_add_a_lut_entry xdev addr size = (0, Some out, xdev') /\
    log (mmio xdev')
    = log (mmio xdev)
      ++ run_events programmed_entry_events (Z.to_nat n)
           (a_lut_array_base xdev) segment_id
           (Z.land addr
              (not64 (u64 (alm_segment_size (a_lut_manager xdev) - 1))))
           (alm_segment_size a)
      ++ [Mb; MmioRead (permission_reg (a_lut_array_base xdev)
                          (segment_id + n - 1))].
Proof.
  intros Hadd Hs Hn Hfit Hlast.
  unfold plx_add_a_lut_entry. rewrite Hadd. simpl.
  rewrite loop_count_exact by lia.
  destruct (a_lut_program_loop _ _ _ _ _ _ _) as [last mw] eqn:Hloop.
  pose proof (a_lut_program_loop_log (Z.to_nat n) (a_lut_array_base xdev)
                segment_id
                (Z.land addr
                   (not64 (u64 (alm_segment_size (a_lut_manager xdev) - 1))))
                (alm_segment_size a) 0 (mmio xdev)) as Hlog.
  pose proof (a_lut_program_loop_last (Z.to_nat n) (a_lut_array_base xdev)
                segment_id
                (Z.land addr
                   (not64 (u64 (alm_segment_size (a_lut_manager xdev) - 1))))
                (alm_segment_size a) 0 (mmio xdev)) as Hl.
  rewrite Hloop in Hlog, Hl. simpl in Hlog, Hl.
  destruct (Z.to_nat n) as [|count] eqn:Hc; [lia|].
  replace (segment_id + Z.of_nat count) with (segment_id + n - 1) in Hl by lia.
  subst last.
  destruct (Z.eqb_spec (permission_reg (a_lut_array_base xdev)
                          (segment_id + n - 1)) 0) as [E|_]; [contradiction|].
  eexists _, _. split; [reflexivity|].
  simpl. rewrite Hlog. now rewrite <- !app_assoc.
Qed.

(** C7: when the manager reports a failure (any error code other than
    [-EEXIST], no space among them), [plx_add_a_lut_entry] returns
    [-ENOMEM], stores no translated address and leaves the register window
    as it was: no register is written.  This holds for every segment
    manager. *)
Theorem map_no_space_no_write xdev addr size err segment_id n a :
  plx_alm_add_entry (a_lut_manager xdev) addr size = (err, segment_id, n, a) ->
  err <> 0 -> err <> - EEXIST ->
  exists xdev',
    plx_add_a_lut_entry xdev addr size = (- ENOMEM, None, xdev') /\
    mmio xdev' = mmio xdev.
Proof.
  intros Hadd H0 Hex. unfold plx_add_a_lut_entry. rewrite Hadd.
  destruct (Z.eqb_spec err 0) as [|_]; [contradiction|].
  destruct (Z.eqb_spec err (- EEXIST)) as [|_]; [contradiction|].
  simpl. eexists; split; reflexivity.
Qed.

(** ** Unmap *)

(** C6: for a translated address at or beyond
    [segments_num * segment_size], [plx_del_a_lut_entry] returns with the
    device unchanged: the manager state, the registers and the log are what
    they were.  This holds for every segment manager, whatever its
    [plx_alm_del_entry] does. *)
Theorem unmap_out_of_range xdev addr :
  0 < alm_segment_size (a_lut_manager xdev) ->
  0 <= alm_segments_num (a_lut_manager xdev) ->
  alm_segments_num (a_lut_manager xdev)
    * alm_segment_size (a_lut_manager xdev) < 2 ^ 64 ->
  alm_segments_num (a_lut_manager xdev)
    * alm_segment_size (a_lut_manager xdev) <= addr ->
  plx_del_a_lut_entry xdev addr = Some xdev.
Proof.
  intros Hs Hn Hfit Hout. unfold plx_del_a_lut_entry.
  destruct (Z.eqb_spec (alm_segment_size (a_lut_manager xdev)) 0); [lia|].
  rewrite u64_small by nia.
  destruct (Z.leb_spec (alm_segments_num (a_lut_manager xdev)
                        * alm_segment_size (a_lut_manager xdev)) addr);
    [reflexivity|lia].
Qed.

(** C5 (as the code has it): when [plx_alm_del_entry] reports the run of
    [n] entries from [start] as freed, the clearing done by
    [plx_del_a_lut_entry] writes zero to the permission register of each of
    the entries [start], ..., [start + n - 1], in this order, and writes
    nothing else: these permission registers read zero afterwards and every
    other register, the re-map registers of the freed entries among them, is
    as it was (with [n = 0], no entry freed, nothing is written).
    [plx_a_lut_clear], in contrast, writes zero to the permission, the higher
    re-map and the lower re-map register of every entry of the table, so
    that all three read zero afterwards.  This holds for every segment
    manager. *)
Theorem clear_entry_writes xdev addr start n a' offset :
  alm_segment_size (a_lut_manager xdev) <> 0 ->
  addr < u64 (alm_segments_num (a_lut_manager xdev)
              * alm_segment_size (a_lut_manager xdev)) ->
  plx_alm_del_entry (a_lut_manager xdev)
    (u32 (addr / alm_segment_size (a_lut_manager xdev))) = (start, n, a') ->
  0 <= start -> 0 <= n -> start + n < 2 ^ 32 ->
  (exists xdev',
     plx_del_a_lut_entry xdev addr = Some xdev' /\
     a_lut_manager xdev' = a' /\
     log (mmio xdev')
     = log (mmio xdev)
       ++ cleared_permission_events (Z.to_nat n) (a_lut_array_base xdev) start /\
     (forall k, 0 <= k < n ->
        reg_val (mmio xdev')
          (permission_reg (a_lut_array_base xdev) (start + k)) = 0) /\
     (forall off,
        (forall k, 0 <= k < n ->
           off <> permission_reg (a_lut_array_base xdev) (start + k)) ->
        regs (mmio xdev') !! off = regs (mmio xdev) !! off)) /\
  (let cleared := plx_a_lut_clear xdev offset in
   log (mmio cleared)
   = log (mmio xdev)
     ++ cleared_entry_events
          (Z.to_nat (alm_segments_num (a_lut_manager cleared))) offset 0 /\
   forall i, 0 <= i < alm_segments_num (a_lut_manager cleared) ->
     reg_val (mmio cleared) (permission_reg offset i) = 0 /\
     reg_val (mmio cleared) (higher_re_map_reg offset i) = 0 /\
     reg_val (mmio cleared) (lower_re_map_reg offset i) = 0).
Proof.
  intros Hss Hin Hdel Hs Hn Hfit. split.
  - unfold plx_del_a_lut_entry.
    destruct (Z.eqb_spec (alm_segment_size (a_lut_manager xdev)) 0);
      [contradiction|].
    destruct (Z.leb_spec (u64 (alm_segments_num (a_lut_manager xdev)
                               * alm_segment_size (a_lut_manager xdev))) addr);
      [lia|].
    rewrite Hdel. destruct (Z.eqb_spec n 0) as [->|Hn0].
    + eexists. split; [reflexivity|]. simpl.
      split; [reflexivity|]. split; [now rewrite app_nil_r|].
      split; [intros k Hk; lia|reflexivity].
    + eexists. split; [reflexivity|]. simpl.
      rewrite loop_count_exact by lia.
      split; [reflexivity|]. split; [apply a_lut_del_loop_log|]. split.
      * intros k Hk. apply a_lut_del_loop_zero.
        apply cleared_permission_offsets. exists (Z.to_nat k).
        split; [lia|f_equal; lia].
      * intros off Hoff. apply a_lut_del_loop_regs.
        rewrite cleared_permission_offsets. intros (j & Hj & E).
        apply (Hoff (Z.of_nat j)); [lia|exact E].
  - unfold plx_a_lut_clear; simpl. split; [apply a_lut_clear_loop_log|].
    intros i Hi.
    destruct (cleared_entry_events_offsets
                (Z.to_nat (alm_segments_num (plx_alm_reset (a_lut_manager xdev))))
                offset 0 (Z.to_nat i) ltac:(lia)) as (Hp & Hh & Hl).
    replace (0 + Z.of_nat (Z.to_nat i)) with i in * by lia.
    repeat split; now apply a_lut_clear_loop_zero.
Qed.

(** ** Scratchpads *)

Lemma lor_halves v :
  0 <= v < 2 ^ 64 ->
  Z.lor (u32 v) (u64 (Z.shiftl (u32 (Z.shiftr v 32)) 32)) = v.
Proof.
  intros Hv. unfold u32.
  rewrite Z.shiftr_div_pow2 by lia.
  assert (Hhi : 0 <= v / 2 ^ 32 < 2 ^ 32)
    by (split; [apply Z.div_pos; lia|apply Z.div_lt_upper_bound; lia]).
  rewrite (Z.mod_small (v / 2 ^ 32)) by exact Hhi.
  rewrite Z.shiftl_mul_pow2 by lia.
  rewrite u64_small by lia.
  rewrite <- Z.add_nocarry_lor.
  - pose proof (Z.div_mod v (2 ^ 32) ltac:(lia)). lia.
  - apply Z.bits_inj'. intros k Hk. rewrite Z.land_spec, Z.bits_0.
    destruct (Z.lt_ge_cases k 32).
    + rewrite <- Z.shiftl_mul_pow2 by lia.
      rewrite (Z.shiftl_spec_low _ 32 k) by lia. apply andb_false_r.
    + rewrite Z.mod_pow2_bits_high by lia. reflexivity.
Qed.

(** C10: writing a 64-bit value with [plx_set_dp_addr] and reading it back
    with [plx_get_dp_addr] gives the value back, the two scratchpads being
    different registers. *)
Theorem dp_addr_roundtrip xdev v :
  0 <= v < 2 ^ 64 ->
  spad_reg xdev PLX_DPLO_SPAD <> spad_reg xdev PLX_DPHI_SPAD ->
  fst (plx_get_dp_addr (plx_set_dp_addr xdev v)) = v.
Proof.
  intros Hv Hne.
  unfold plx_get_dp_addr, plx_set_dp_addr, plx_read_spad, plx_write_spad,
    plx_mmio_read, spad_reg in *; simpl.
  rewrite reg_val_write_ne by congruence.
  rewrite reg_val_write_eq.
  unfold reg_val at 1; simpl. rewrite lookup_insert_eq; simpl.
  now apply lor_halves.
Qed.

(** ** Card reset *)

Lemma grace_window ts d :
  0 <= ts < 2 ^ 64 -> 0 <= d < RESET_GRACE_PERIOD_JIFFIES ->
  RESET_GRACE_PERIOD_JIFFIES <= 2 ^ 63 ->
  time_after_eq64 (u64 (ts + d)) ts
  && time_before64 (u64 (ts + d)) (u64 (ts + RESET_GRACE_PERIOD_JIFFIES))
  = true.
Proof.
  intros Hts Hd Hg. unfold time_after_eq64, time_before64, s64.
  assert (E1 : u64 (u64 (u64 (ts + d) - ts)) = d).
  { unfold u64. rewrite Z.mod_mod by lia.
    rewrite Zminus_mod_idemp_l. replace (ts + d - ts) with d by lia.
    apply Z.mod_small; lia. }
  assert (E2 : u64 (u64 (u64 (ts + d) - u64 (ts + RESET_GRACE_PERIOD_JIFFIES)))
               = 2 ^ 64 + d - RESET_GRACE_PERIOD_JIFFIES).
  { unfold u64. rewrite Z.mod_mod by lia.
    rewrite Zminus_mod_idemp_l, Zminus_mod_idemp_r.
    replace (ts + d - (ts + RESET_GRACE_PERIOD_JIFFIES))
      with ((d - RESET_GRACE_PERIOD_JIFFIES) + 1 * 2 ^ 64 - 1 * 2 ^ 64) by lia.
    rewrite <- (Z.mod_add _ 1 (2 ^ 64)) by lia.
    replace (d - RESET_GRACE_PERIOD_JIFFIES + 1 * 2 ^ 64 - 1 * 2 ^ 64 + 1 * 2 ^ 64)
      with (2 ^ 64 + d - RESET_GRACE_PERIOD_JIFFIES) by lia.
    apply Z.mod_small; lia. }
  rewrite E1, E2.
  apply andb_true_intro; split.
  - destruct (Z.ltb_spec d (2 ^ 63)); apply Z.leb_le; lia.
  - destruct (Z.ltb_spec (2 ^ 64 + d - RESET_GRACE_PERIOD_JIFFIES) (2 ^ 63));
      apply Z.ltb_lt; lia.
Qed.

Lemma card_reset_rejected (contexts : gmap (Z * Z) Z) xdev cpu_id ts d t1 t2 :
  contexts !! (card_id xdev, cpu_id) = Some ts ->
  0 <= ts < 2 ^ 64 -> 0 <= d < RESET_GRACE_PERIOD_JIFFIES ->
  RESET_GRACE_PERIOD_JIFFIES <= 2 ^ 63 ->
  plx_card_reset contexts xdev cpu_id (u64 (ts + d)) t1 t2 = (contexts, xdev).
Proof.
  intros Hctx Hts Hd Hg. unfold plx_card_reset.
  destruct (_ || _); [reflexivity|].
  rewrite Hctx. now rewrite grace_window.
Qed.

(** C9: an accepted reset trigger leaves the last reading of the clock as the
    node's [reset_ts]; a request that then arrives less than the grace
    period after that timestamp is rejected, with the device (so the GPIO
    register and the log) and the stored timestamps unchanged. *)
Theorem card_reset_grace_period (contexts : gmap (Z * Z) Z) xdev cpu_id
    ts t0 t1 t2 d t1' t2' :
  0 <= cpu_id < plx_get_cpu_num xdev ->
  contexts !! (card_id xdev, cpu_id) = Some ts ->
  time_after_eq64 t0 ts
  && time_before64 t0 (u64 (ts + RESET_GRACE_PERIOD_JIFFIES)) = false ->
  0 <= t2 < 2 ^ 64 -> 0 <= d < RESET_GRACE_PERIOD_JIFFIES ->
  RESET_GRACE_PERIOD_JIFFIES <= 2 ^ 63 ->
  let accepted := plx_card_reset contexts xdev cpu_id t0 t1 t2 in
  fst accepted !! (card_id xdev, cpu_id) = Some t2 /\
  log (mmio (snd accepted)) <> log (mmio xdev) /\
  plx_card_reset (fst accepted) (snd accepted) cpu_id (u64 (t2 + d)) t1' t2'
  = accepted.
Proof.
  intros Hcpu Hctx Hacc Ht2 Hd Hg accepted.
  assert (Hrec : fst accepted !! (card_id xdev, cpu_id) = Some t2 /\
                 card_id (snd accepted) = card_id xdev /\
                 log (mmio (snd accepted)) <> log (mmio xdev)).
  { subst accepted. unfold plx_card_reset.
    destruct (Z.ltb_spec cpu_id 0); [lia|].
    destruct (Z.leb_spec (plx_get_cpu_num xdev) cpu_id); [lia|].
    simpl. rewrite Hctx, Hacc.
    unfold plx_get_cpu_num in Hcpu.
    destruct (negb (Z.land (card_type xdev) VCA_VV =? 0));
      [|destruct (negb (Z.land (card_type xdev) VCA_MV =? 0)); [|lia]];
      simpl; rewrite lookup_insert_eq; (split; [reflexivity|split; [reflexivity|]]);
      unfold signal_bit, plx_mmio_read, plx_mmio_write, barrier; simpl;
      rewrite <- !app_assoc; simpl;
      intros E; apply (f_equal length) in E; rewrite length_app in E;
      simpl in E; lia. }
  destruct Hrec as (Hrec & Hcard & Hlog).
  split; [exact Hrec|]. split; [exact Hlog|].
  rewrite (surjective_pairing accepted) at 3.
  apply card_reset_rejected with (ts := t2); try assumption.
  now rewrite Hcard.
Qed.

End DriverFacts.

(** ** The segment manager *)

Lemma alter_range_lookup {A} (f : A -> A) s n (l : list A) i :
  alter_range f s n l !! i
  = (fun x => if (s <=? i)%nat && (i <? s + n)%nat then f x else x) <$> l !! i.
Proof. unfold alter_range. apply list_lookup_imap. Qed.

Lemma alter_range_length {A} (f : A -> A) s n (l : list A) :
  length (alter_range f s n l) = length l.
Proof. unfold alter_range. apply length_imap. Qed.

Lemma alter_range_inside {A} (f : A -> A) s n (l : list A) i :
  (s <= i < s + n)%nat -> alter_range f s n l !! i = f <$> l !! i.
Proof.
  intros Hi. rewrite alter_range_lookup.
  destruct (Nat.leb_spec s i); [|lia].
  destruct (Nat.ltb_spec i (s + n)); [|lia]. reflexivity.
Qed.

Lemma alter_range_outside {A} (f : A -> A) s n (l : list A) i :
  ~ (s <= i < s + n)%nat -> alter_range f s n l !! i = l !! i.
Proof.
  intros Hi. rewrite alter_range_lookup.
  destruct (Nat.leb_spec s i); destruct (Nat.ltb_spec i (s + n));
    simpl; try lia; now destruct (l !! i).
Qed.

(** Altering a range twice is the identity when the second function undoes
    the first on the elements of the range. *)
Lemma alter_range_undo {A} (f g : A -> A) s n (l : list A) :
  (forall i x, (s <= i < s + n)%nat -> l !! i = Some x -> g (f x) = x) ->
  alter_range g s n (alter_range f s n l) = l.
Proof.
  intros Hundo. apply list_eq. intros i.
  destruct (decide (s <= i < s + n)%nat) as [Hi|Hi].
  - rewrite !alter_range_inside by exact Hi.
    destruct (l !! i) as [x|] eqn:E; simpl; [|reflexivity].
    f_equal. now apply (Hundo i).
  - now rewrite !alter_range_outside by exact Hi.
Qed.

Lemma find_seq_first (p : nat -> bool) len : forall a s,
  (a <= s < a + len)%nat -> p s = true ->
  (forall j, (a <= j < s)%nat -> p j = false) ->
  find p (seq a len) = Some s.
Proof.
  induction len as [|len IH]; intros a s Hs Hp Hbefore; [lia|].
  simpl. destruct (decide (a = s)) as [->|Hne].
  - now rewrite Hp.
  - rewrite (Hbefore a) by lia. apply IH; [lia|exact Hp|].
    intros j Hj. apply Hbefore. lia.
Qed.

Lemma find_ext {A} (p q : A -> bool) (l : list A) :
  (forall x, In x l -> p x = q x) -> find p l = find q l.
Proof.
  induction l as [|x l IH]; intros Hpq; simpl; [reflexivity|].
  rewrite (Hpq x) by now left.
  destruct (q x); [reflexivity|]. apply IH. intros y Hy. apply Hpq. now right.
Qed.

Lemma run_free_lookup l n s i :
  run_free l n s = true -> (s <= i < s + n)%nat -> l !! i = Some FREE.
Proof.
  unfold run_free. rewrite forallb_forall. intros Hall Hi.
  specialize (Hall i). rewrite in_seq in Hall. specialize (Hall Hi).
  unfold is_free in Hall. destruct (l !! i) as [[|]|]; congruence.
Qed.

Lemma run_matches_lookup l base n i :
  run_matches l base n i = true ->
  exists c, l !! i = Some (ALLOCATED c i n base).
Proof.
  unfold run_matches. destruct (l !! i) as [[|c s len b]|]; try discriminate.
  rewrite !andb_true_iff, !Nat.eqb_eq, Z.eqb_eq. intros [[-> ->] ->]. eauto.
Qed.

Lemma alm_addr_masked_range a addr :
  0 <= addr -> 0 <= alm_addr_masked a addr <= addr.
Proof.
  intros Ha. unfold alm_addr_masked. split.
  - apply Z.land_nonneg. now left.
  - now apply land_le_l.
Qed.

Lemma alm_segments_needed_pos a addr size :
  0 < segment_size a -> 0 <= addr -> 0 < size ->
  (0 < alm_segments_needed a addr size)%nat.
Proof.
  intros Hs Ha Hsz. unfold alm_segments_needed.
  pose proof (alm_addr_masked_range a addr Ha).
  assert (1 <= (addr + size - alm_addr_masked a addr + segment_size a - 1)
               / segment_size a)
    by (apply Z.div_le_lower_bound; lia).
  lia.
Qed.

(** What a successful [spec_alm_add_entry] returns and leaves behind. *)
Lemma spec_add_entry_success a addr size err sid n a' :
  0 < segment_size a -> 0 <= addr -> 0 < size ->
  spec_alm_add_entry a addr size = (err, sid, n, a') ->
  err = 0 \/ err = - EEXIST ->
  let base := alm_addr_masked a addr in
  let k := alm_segments_needed a addr size in
  n = Z.of_nat k /\
  0 <= sid < segments_num a /\
  segment_size a' = segment_size a /\
  segments_num a' = segments_num a /\
  (exists c, entries a' !! Z.to_nat sid = Some (ALLOCATED c (Z.to_nat sid) k base)) /\
  find_run (entries a') base k = Some (Z.to_nat sid) /\
  (err = 0 ->
   spec_alm_del_entry a' sid = (sid, n, a)) /\
  (err = - EEXIST ->
   spec_alm_del_entry a' sid = (0, 0, a)).
Proof.
  intros Hs Ha Hsz Hadd Herr base k.
  pose proof (alm_segments_needed_pos a addr size Hs Ha Hsz) as Hk.
  fold k in Hk. unfold spec_alm_add_entry in Hadd. fold base k in Hadd.
  destruct (find_run (entries a) base k) as [i|] eqn:Hfind.
  - (* the run exists already *)
    injection Hadd as <- <- <- <-.
    pose proof Hfind as Hfind0.
    apply find_some in Hfind as [Hin Hm]. apply in_seq in Hin.
    destruct (run_matches_lookup _ _ _ _ Hm) as [c Hi].
    assert (Hi' : alter_range segment_incr i k (entries a) !! i
                  = Some (ALLOCATED (Pos.succ c) i k base))
      by (rewrite alter_range_inside by lia; now rewrite Hi).
    unfold segments_num; simpl. rewrite alter_range_length, Nat2Z.id.
    repeat split; try lia; try reflexivity.
    + eauto.
    + unfold find_run. rewrite alter_range_length, <- Hfind0.
      apply find_ext. intros j _. unfold run_matches.
      rewrite alter_range_lookup.
      destruct (entries a !! j) as [[|c' s' n' b']|]; simpl; try reflexivity;
        now destruct (_ && _).
    + intros; discriminate.
    + intros _. unfold spec_alm_del_entry; simpl. rewrite Nat2Z.id, Hi'.
      destruct (decide (Pos.succ c = 1%positive)) as [E|_]; [lia|].
      f_equal. destruct a as [sz l]; unfold with_entries; simpl in *.
      f_equal. apply alter_range_undo.
      intros j x _ _. destruct x; simpl; [reflexivity|].
      now rewrite Pos.pred_succ.
  - (* a new run is allocated *)
    destruct (first_fit (entries a) k) as [s|] eqn:Hfit.
    2:{ injection Hadd as <- _ _ _. destruct Herr; discriminate. }
    injection Hadd as <- <- <- <-.
    apply find_some in Hfit as [Hin Hfree]. apply in_seq in Hin.
    assert (Hs' : alter_range (fun _ => ALLOCATED 1 s k base) s k (entries a) !! s
                  = Some (ALLOCATED 1 s k base)).
    { rewrite alter_range_inside by lia.
      now rewrite (run_free_lookup _ _ _ s Hfree) by lia. }
    unfold segments_num; simpl. rewrite alter_range_length, Nat2Z.id.
    repeat split; try lia; try reflexivity.
    + eauto.
    + unfold find_run. rewrite alter_range_length.
      apply find_seq_first; [lia| |].
      * unfold run_matches. rewrite Hs'.
        now rewrite !Nat.eqb_refl, Z.eqb_refl.
      * intros j Hj.
        pose proof (find_none _ _ Hfind j) as Hnone.
        rewrite in_seq in Hnone. specialize (Hnone ltac:(lia)).
        unfold run_matches in *. now rewrite alter_range_outside by lia.
    + intros _. unfold spec_alm_del_entry; simpl. rewrite Nat2Z.id, Hs'.
      destruct (decide (1 = 1)%positive) as [_|E]; [|congruence].
      f_equal. destruct a as [sz l]; unfold with_entries; simpl in *.
      f_equal. apply alter_range_undo.
      intros j x Hj Hx. rewrite (run_free_lookup _ _ _ j Hfree Hj) in Hx.
      congruence.
    + intros E; discriminate.
Qed.

(** ** Map and unmap over the segment manager *)

Section ManagedDriver.
Context {C : plx_consts}.
Implicit Types xdev : plx_device (alm := plx_alm).

(** The translated address of a successful map, without wrap-around. *)
Lemma map_result xdev addr size rc out xdev1 err sid n a' :
  alm_wf (a_lut_manager xdev) -> 0 <= addr -> 0 < size ->
  plx_alm_add_entry (a_lut_manager xdev) addr size = (err, sid, n, a') ->
  plx_add_a_lut_entry xdev addr size = (rc, Some out, xdev1) ->
  let ssize := segment_size (a_lut_manager xdev) in
  let offset := Z.land addr (u64 (ssize - 1)) in
  (err = 0 \/ err = - EEXIST) /\ rc = 0 /\
  a_lut_manager xdev1 = a' /\
  0 <= sid < segments_num (a_lut_manager xdev) /\
  u64 (ssize - 1) = ssize - 1 /\
  0 <= offset < ssize /\
  out = sid * ssize + offset /\
  out < segments_num (a_lut_manager xdev) * ssize.
Proof.
  intros (Hs & Hn & Hfit) Ha Hsz Hadd Hmap ssize offset.
  unfold plx_add_a_lut_entry in Hmap. rewrite Hadd in Hmap.
  assert (Herr : err = 0 \/ err = - EEXIST).
  { destruct (Z.eqb_spec err 0); [now left|].
    destruct (Z.eqb_spec err (- EEXIST)); [now right|].
    simpl in Hmap. discriminate. }
  simpl in Hadd.
  destruct (spec_add_entry_success _ _ _ _ _ _ _ Hs Ha Hsz Hadd Herr)
    as (_ & Hsid & Hss & _).
  assert (Hmask : u64 (ssize - 1) = ssize - 1)
    by (apply u64_small; subst ssize; nia).
  assert (Hoff : 0 <= offset < ssize).
  { subst offset. rewrite Hmask. split.
    - apply Z.land_nonneg. now left.
    - pose proof (land_le_r addr (ssize - 1) ltac:(subst ssize; lia)). lia. }
  assert (Hlt : sid * ssize + offset < segments_num (a_lut_manager xdev) * ssize)
    by (subst ssize; nia).
  assert (Hout : out = sid * ssize + offset /\ rc = 0 /\ a_lut_manager xdev1 = a').
  { destruct Herr as [-> | ->]; simpl in Hmap.
    - destruct (a_lut_program_loop _ _ _ _ _ _ _) as [last mw].
      injection Hmap as <- <- <-. simpl. rewrite Hss.
      repeat split. apply u64_small. subst ssize offset; nia.
    - injection Hmap as <- <- <-. simpl. rewrite Hss.
      repeat split. apply u64_small. subst ssize offset; nia. }
  destruct Hout as (-> & -> & ->). repeat split; try assumption; lia.
Qed.

(** C1: on a well-formed manager, a successful map of a non-empty range
    followed by the unmap of the translated address it returned gives the
    manager state back: segment size and every segment's free/allocated
    record are what they were before the map. *)
Theorem map_unmap_roundtrip xdev addr size out xdev1 :
  alm_wf (a_lut_manager xdev) -> 0 <= addr -> 0 < size ->
  plx_add_a_lut_entry xdev addr size = (0, Some out, xdev1) ->
  exists xdev2,
    plx_del_a_lut_entry xdev1 out = Some xdev2 /\
    a_lut_manager xdev2 = a_lut_manager xdev.
Proof.
  intros Hwf Ha Hsz Hmap.
  destruct (plx_alm_add_entry (a_lut_manager xdev) addr size)
    as [[[err sid] n] a'] eqn:Hadd.
  destruct (map_result _ _ _ _ _ _ _ _ _ _ Hwf Ha Hsz Hadd Hmap)
    as (Herr & _ & Ha' & Hsid & _ & Hoff & Hout & Hlt).
  destruct Hwf as (Hs & Hn & Hfit). simpl in Hadd.
  destruct (spec_add_entry_success _ _ _ _ _ _ _ Hs Ha Hsz Hadd Herr)
    as (_ & _ & Hss & Hnum & _ & _ & Hdel0 & Hdel1).
  unfold plx_del_a_lut_entry. rewrite Ha'. simpl. rewrite Hss, Hnum.
  destruct (Z.eqb_spec (segment_size (a_lut_manager xdev)) 0); [lia|].
  rewrite u64_small by nia.
  destruct (Z.leb_spec (segments_num (a_lut_manager xdev)
                        * segment_size (a_lut_manager xdev)) out); [lia|].
  assert (Hdiv : out / segment_size (a_lut_manager xdev) = sid).
  { rewrite Hout. symmetry. apply (Z.div_unique_pos _ _ sid
      (Z.land addr (u64 (segment_size (a_lut_manager xdev) - 1)))); lia. }
  rewrite Hdiv, (u32_small sid) by lia.
  destruct Herr as [-> | ->].
  - rewrite (Hdel0 eq_refl). destruct (n =? 0); eexists; split; reflexivity.
  - rewrite (Hdel1 eq_refl). simpl. eexists; split; reflexivity.
Qed.

(** C2: on a well-formed manager whose segment size is a power of two, the
    translated address a successful map returns is
    [segment_id * segment_size + addr mod segment_size], with the
    [segment_id] the manager returned, be the run new or already mapped; and
    a second map of the same [addr] whose range masks to the same run returns
    the same translated address. *)
Theorem map_translated_address xdev addr size out xdev1 err segment_id n a k :
  alm_wf (a_lut_manager xdev) ->
  0 <= k -> segment_size (a_lut_manager xdev) = 2 ^ k ->
  0 <= addr -> 0 < size ->
  plx_alm_add_entry (a_lut_manager xdev) addr size = (err, segment_id, n, a) ->
  plx_add_a_lut_entry xdev addr size = (0, Some out, xdev1) ->
  out = segment_id * segment_size (a_lut_manager xdev)
        + addr mod segment_size (a_lut_manager xdev) /\
  forall size', 0 < size' ->
    alm_segments_needed (a_lut_manager xdev) addr size'
    = alm_segments_needed (a_lut_manager xdev) addr size ->
    exists xdev2,
      plx_add_a_lut_entry xdev1 addr size' = (0, Some out, xdev2).
Proof.
  intros Hwf Hk Hpow Ha Hsz Hadd Hmap.
  destruct (map_result _ _ _ _ _ _ _ _ _ _ Hwf Ha Hsz Hadd Hmap)
    as (Herr & _ & Ha' & Hsid & Hmask & Hoff & Hout & Hlt).
  destruct Hwf as (Hs & Hn & Hfit). simpl in Hadd.
  destruct (spec_add_entry_success _ _ _ _ _ _ _ Hs Ha Hsz Hadd Herr)
    as (_ & _ & Hss & Hnum & _ & Hfind & _).
  assert (Hmod : Z.land addr (u64 (segment_size (a_lut_manager xdev) - 1))
                 = addr mod segment_size (a_lut_manager xdev)).
  { rewrite Hmask, Hpow. rewrite <- Z.land_ones by exact Hk.
    now rewrite Z.ones_equiv, <- Z.sub_1_r. }
  split; [now rewrite Hout, Hmod|].
  intros size' Hsz' Hsame.
  unfold plx_add_a_lut_entry. rewrite Ha'. simpl.
  unfold spec_alm_add_entry.
  assert (Hbase : alm_addr_masked a addr
                  = alm_addr_masked (a_lut_manager xdev) addr)
    by (unfold alm_addr_masked; now rewrite Hss).
  assert (Hneed : alm_segments_needed a addr size'
                  = alm_segments_needed (a_lut_manager xdev) addr size)
    by (rewrite <- Hsame; unfold alm_segments_needed, alm_addr_masked;
        now rewrite Hss).
  rewrite Hbase, Hneed, Hfind. simpl. rewrite Hss.
  eexists. do 3 f_equal. rewrite Z2Nat.id by lia.
  rewrite Hout. apply u64_small. lia.
Qed.

(** C8: on a well-formed manager, unmapping an address inside an allocated
    run whose reference count is above one leaves the register window
    untouched (no register is written) and only decrements the count;
    unmapping it when the count is one frees the run and writes zero to the
    permission register of each of its entries, and to nothing else. *)
Theorem unmap_clears_on_last_reference xdev addr c s n b :
  alm_wf (a_lut_manager xdev) ->
  0 <= addr < segments_num (a_lut_manager xdev)
              * segment_size (a_lut_manager xdev) ->
  entries (a_lut_manager xdev)
    !! Z.to_nat (addr / segment_size (a_lut_manager xdev))
  = Some (ALLOCATED c s n b) ->
  (s + n <= length (entries (a_lut_manager xdev)))%nat ->
  exists xdev',
    plx_del_a_lut_entry xdev addr = Some xdev' /\
    (c <> 1%positive ->
     mmio xdev' = mmio xdev /\
     entries (a_lut_manager xdev')
     = alter_range segment_decr s n (entries (a_lut_manager xdev))) /\
    (c = 1%positive ->
     log (mmio xdev')
     = log (mmio xdev)
       ++ cleared_permission_events n (a_lut_array_base xdev) (Z.of_nat s) /\
     entries (a_lut_manager xdev')
     = alter_range (fun _ => FREE) s n (entries (a_lut_manager xdev))).
Proof.
  intros (Hs & Hn & Hfit) Haddr Hseg Hrun.
  unfold plx_del_a_lut_entry. simpl.
  destruct (Z.eqb_spec (segment_size (a_lut_manager xdev)) 0); [lia|].
  rewrite u64_small by nia.
  destruct (Z.leb_spec (segments_num (a_lut_manager xdev)
                        * segment_size (a_lut_manager xdev)) addr); [lia|].
  assert (Hdiv : 0 <= addr / segment_size (a_lut_manager xdev)
                 < segments_num (a_lut_manager xdev)).
  { split; [apply Z.div_pos; lia|].
    apply Z.div_lt_upper_bound; lia. }
  rewrite u32_small by lia.
  unfold spec_alm_del_entry. rewrite Hseg.
  unfold segments_num in *.
  destruct (decide (c = 1%positive)) as [->|Hc].
  - destruct (Z.eqb_spec (Z.of_nat n) 0) as [E|E].
    + eexists; split; [reflexivity|]. split; [congruence|]. intros _.
      assert (n = O) by lia. subst n. simpl. now rewrite app_nil_r.
    + eexists; split; [reflexivity|]. split; [congruence|]. intros _. simpl.
      rewrite a_lut_del_loop_log, loop_count_exact, Nat2Z.id by lia.
      split; reflexivity.
  - simpl. eexists; split; [reflexivity|]. split; [|congruence].
    intros _. split; reflexivity.
Qed.

End ManagedDriver.

(** * Further properties of the driver *)

Section MoreFacts.
Context {C : plx_consts} {G : plx_gpio_consts} {alm : Type} {M : plx_alm_ops alm}.
Implicit Types xdev : plx_device (alm := alm).

(** ** Replaying writes *)

Lemma apply_writes_app evs1 evs2 (r : gmap Z Z) :
  apply_writes (evs1 ++ evs2) r = apply_writes evs2 (apply_writes evs1 r).
Proof. unfold apply_writes. apply foldl_app. Qed.

Lemma apply_writes_frame evs : forall (r : gmap Z Z) off,
  off ∉ written_offsets evs -> apply_writes evs r !! off = r !! off.
Proof.
  induction evs as [|e evs IH]; intros r off Hoff; [reflexivity|].
  change (apply_writes (e :: evs) r)
    with (apply_writes evs
            (match e with MmioWrite v o => <[o := v]> r | _ => r end)).
  destruct e; simpl in Hoff; try (now apply IH).
  apply not_elem_of_cons in Hoff as [Hne Hoff].
  rewrite IH by exact Hoff. now rewrite lookup_insert_ne.
Qed.

Lemma apply_writes_lookup evs : forall (r : gmap Z Z) v off,
  NoDup (written_offsets evs) -> MmioWrite v off ∈ evs ->
  apply_writes evs r !! off = Some v.
Proof.
  induction evs as [|e evs IH]; intros r v off Hnd Hin; [inversion Hin|].
  change (apply_writes (e :: evs) r)
    with (apply_writes evs
            (match e with MmioWrite v o => <[o := v]> r | _ => r end)).
  apply elem_of_cons in Hin as [<-|Hin].
  - simpl in Hnd. apply NoDup_cons in Hnd as [Hnotin _].
    rewrite apply_writes_frame by exact Hnotin. apply lookup_insert_eq.
  - apply IH; [|exact Hin]. destruct e; simpl in Hnd; try exact Hnd.
    now apply NoDup_cons in Hnd as [_ Hnd].
Qed.

Lemma a_lut_program_loop_regs count : forall base i addr_masked ssize last mw,
  regs (snd (a_lut_program_loop count base i addr_masked ssize last mw))
  = apply_writes
      (run_events programmed_entry_events count base i addr_masked ssize)
      (regs mw).
Proof.
  induction count as [|count IH]; intros; simpl; [reflexivity|].
  rewrite IH. reflexivity.
Qed.

Lemma a_lut_del_loop_apply count : forall base i mw,
  regs (a_lut_del_loop count base i mw)
  = apply_writes (cleared_permission_events count base i) (regs mw).
Proof.
  induction count as [|count IH]; intros; simpl; [reflexivity|].
  rewrite IH, permission_reg_del. reflexivity.
Qed.

(** The address programmed into the [k]-th entry of a run. *)
Lemma run_events_entry count : forall base i addr_masked ssize k,
  0 <= addr_masked < 2 ^ 64 -> (k < count)%nat ->
  forall e,
    e ∈ programmed_entry_events base (i + Z.of_nat k)
          (u64 (addr_masked + Z.of_nat k * ssize)) ->
    e ∈ run_events programmed_entry_events count base i addr_masked ssize.
Proof.
  induction count as [|count IH]; intros base i am ssize k Ham Hk e He; [lia|].
  cbn [run_events]. apply elem_of_app. destruct k as [|k].
  - left. replace (i + Z.of_nat 0) with i in He by lia.
    replace (am + Z.of_nat 0 * ssize) with am in He by lia.
    now rewrite u64_small in He by exact Ham.
  - right. apply (IH _ _ _ _ k); [apply u64_range|lia|].
    replace (i + 1 + Z.of_nat k) with (i + Z.of_nat (S k)) by lia.
    replace (u64 (u64 (am + ssize) + Z.of_nat k * ssize))
      with (u64 (am + Z.of_nat (S k) * ssize)); [exact He|].
    unfold u64. rewrite Zplus_mod_idemp_l. f_equal. lia.
Qed.

Lemma halves_recombine a :
  0 <= a < 2 ^ 64 -> u32 (Z.shiftr a 32) * 2 ^ 32 + u32 a = a.
Proof.
  intros Ha. unfold u32. rewrite Z.shiftr_div_pow2 by lia.
  rewrite (Z.mod_small (a / 2 ^ 32))
    by (split; [apply Z.div_pos; lia|apply Z.div_lt_upper_bound; lia]).
  pose proof (Z.div_mod a (2 ^ 32) ltac:(lia)). lia.
Qed.

Lemma addr_masked_range addr mask : 0 <= Z.land addr (not64 mask) < 2 ^ 64.
Proof.
  pose proof (u64_range (Z.lnot mask)) as Hr. unfold not64. split.
  - apply Z.land_nonneg. right. lia.
  - pose proof (land_le_r addr (u64 (Z.lnot mask)) ltac:(lia)). lia.
Qed.

Lemma map_register_lookups xdev addr size segment_id n a k :
  plx_alm_add_entry (a_lut_manager xdev) addr size = (0, segment_id, n, a) ->
  0 <= segment_id -> segment_id + n < 2 ^ 32 ->
  let base := a_lut_array_base xdev in
  let addr_masked :=
    Z.land addr (not64 (u64 (alm_segment_size (a_lut_manager xdev) - 1))) in
  NoDup (written_offsets
           (run_events programmed_entry_events (Z.to_nat n) base segment_id
              addr_masked (alm_segment_size a))) ->
  0 <= k < n ->
  let mapped := (plx_add_a_lut_entry xdev addr size).2 in
  let pa := u64 (addr_masked + k * alm_segment_size a) in
  regs (mmio mapped) !! higher_re_map_reg base (segment_id + k)
  = Some (u32 (Z.shiftr pa 32)) /\
  regs (mmio mapped) !! lower_re_map_reg base (segment_id + k)
  = Some (u32 pa) /\
  regs (mmio mapped) !! permission_reg base (segment_id + k)
  = Some (Z.lor PLX_A_LUT_PERMISSION_READ_ENABLE
                PLX_A_LUT_PERMISSION_WRITE_ENABLE).
Proof.
  intros Hadd Hs Hfit base addr_masked Hnd Hk mapped pa.
  assert (Hregs : regs (mmio mapped)
                  = apply_writes
                      (run_events programmed_entry_events (Z.to_nat n) base
                         segment_id addr_masked (alm_segment_size a))
                      (regs (mmio xdev))).
  { subst mapped. unfold plx_add_a_lut_entry. rewrite Hadd. simpl.
    rewrite loop_count_exact by lia.
    rewrite <- (a_lut_program_loop_regs (Z.to_nat n) base segment_id
                  addr_masked (alm_segment_size a) 0 (mmio xdev)).
    fold base addr_masked.
    destruct (a_lut_program_loop _ _ _ _ _ _ _) as [last mw]. simpl.
    destruct (last =? 0); reflexivity. }
  assert (Hin : forall e,
            e ∈ programmed_entry_events base (segment_id + k)
                  (u64 (addr_masked + k * alm_segment_size a)) ->
            e ∈ run_events programmed_entry_events (Z.to_nat n) base
                  segment_id addr_masked (alm_segment_size a)).
  { intros e He.
    apply (run_events_entry _ _ _ _ _ (Z.to_nat k));
      [apply addr_masked_range|lia|].
    now rewrite Z2Nat.id by lia. }
  fold pa in Hin.
  assert (Hhi : regs (mmio mapped) !! higher_re_map_reg base (segment_id + k)
                = Some (u32 (Z.shiftr pa 32))).
  { rewrite Hregs. apply apply_writes_lookup; [exact Hnd|]. apply Hin.
    unfold programmed_entry_events. rewrite !elem_of_cons. auto. }
  assert (Hlo : regs (mmio mapped) !! lower_re_map_reg base (segment_id + k)
                = Some (u32 pa)).
  { rewrite Hregs. apply apply_writes_lookup; [exact Hnd|]. apply Hin.
    unfold programmed_entry_events. rewrite !elem_of_cons. auto. }
  assert (Hperm : regs (mmio mapped) !! permission_reg base (segment_id + k)
                  = Some (Z.lor PLX_A_LUT_PERMISSION_READ_ENABLE
                                PLX_A_LUT_PERMISSION_WRITE_ENABLE)).
  { rewrite Hregs. apply apply_writes_lookup; [exact Hnd|]. apply Hin.
    unfold programmed_entry_events. rewrite !elem_of_cons. auto 6. }
  now repeat split.
Qed.

(** X1: when the manager allocates a new run and the registers of the run
    are pairwise different, [plx_add_a_lut_entry] leaves in the re-map
    registers of the [k]-th entry of the run the two halves of
    [addr_masked + k * segment_size] (modulo [2^64]) and in its permission
    register the read and write enable bits.  This holds for every segment
    manager. *)
Theorem map_programs_registers xdev addr size segment_id n a k :
  plx_alm_add_entry (a_lut_manager xdev) addr size = (0, segment_id, n, a) ->
  0 <= segment_id -> segment_id + n < 2 ^ 32 ->
  let base := a_lut_array_base xdev in
  let addr_masked :=
    Z.land addr (not64 (u64 (alm_segment_size (a_lut_manager xdev) - 1))) in
  NoDup (written_offsets
           (run_events programmed_entry_events (Z.to_nat n) base segment_id
              addr_masked (alm_segment_size a))) ->
  0 <= k < n ->
  let mapped := (plx_add_a_lut_entry xdev addr size).2 in
  reg_val (mmio mapped) (higher_re_map_reg base (segment_id + k)) * 2 ^ 32
  + reg_val (mmio mapped) (lower_re_map_reg base (segment_id + k))
  = u64 (addr_masked + k * alm_segment_size a) /\
  reg_val (mmio mapped) (permission_reg base (segment_id + k))
  = Z.lor PLX_A_LUT_PERMISSION_READ_ENABLE PLX_A_LUT_PERMISSION_WRITE_ENABLE.
Proof.
  intros Hadd Hs Hfit base addr_masked Hnd Hk mapped.
  destruct (map_register_lookups xdev addr size segment_id n a k
              Hadd Hs Hfit Hnd Hk) as (Hhi & Hlo & Hperm).
  fold base addr_masked mapped in Hhi, Hlo, Hperm.
  unfold reg_val. rewrite Hhi, Hlo, Hperm. simpl. split; [|reflexivity].
  apply halves_recombine, u64_range.
Qed.

Lemma written_offsets_app evs1 evs2 :
  written_offsets (evs1 ++ evs2) = written_offsets evs1 ++ written_offsets evs2.
Proof. unfold written_offsets. apply omap_app. Qed.

Lemma run_events_offsets count : forall base i addr_masked ssize k,
  (k < count)%nat ->
  let offs := written_offsets
                (run_events programmed_entry_events count base i addr_masked
                   ssize) in
  higher_re_map_reg base (i + Z.of_nat k) ∈ offs /\
  lower_re_map_reg base (i + Z.of_nat k) ∈ offs /\
  permission_reg base (i + Z.of_nat k) ∈ offs.
Proof.
  induction count as [|count IH]; intros base i am ssize k Hk; [lia|].
  cbn [run_events]. cbv zeta. rewrite written_offsets_app.
  destruct k as [|k].
  - replace (i + Z.of_nat 0) with i by lia. simpl.
    rewrite !elem_of_cons. auto 8.
  - destruct (IH base (i + 1) (u64 (am + ssize)) ssize k ltac:(lia))
      as (Hh & Hl & Hp).
    replace (i + Z.of_nat (S k)) with (i + 1 + Z.of_nat k) by lia.
    rewrite !elem_of_app. auto.
Qed.

(** In a run whose registers are pairwise different no re-map register is
    the permission register of an entry of the run. *)
Lemma run_events_remap_not_permission count : forall base i addr_masked ssize j k,
  NoDup (written_offsets
           (run_events programmed_entry_events count base i addr_masked ssize)) ->
  (j < count)%nat -> (k < count)%nat ->
  higher_re_map_reg base (i + Z.of_nat k) <> permission_reg base (i + Z.of_nat j) /\
  lower_re_map_reg base (i + Z.of_nat k) <> permission_reg base (i + Z.of_nat j).
Proof.
  induction count as [|count IH]; intros base i am ssize j k Hnd Hj Hk; [lia|].
  cbn [run_events] in Hnd. rewrite written_offsets_app in Hnd.
  apply NoDup_app in Hnd as (Hnd1 & Hdisj & Hnd2).
  simpl in Hnd1, Hdisj.
  assert (Hhead : forall o,
            o = higher_re_map_reg base i \/ o = lower_re_map_reg base i
            \/ o = permission_reg base i ->
            o ∈ [higher_re_map_reg base i; lower_re_map_reg base i;
                 permission_reg base i])
    by (intros o Ho; rewrite !elem_of_cons; tauto).
  destruct j as [|j], k as [|k];
    replace (i + Z.of_nat 0) with i by lia.
  - apply NoDup_cons in Hnd1 as [Hh Hnd1]. apply NoDup_cons in Hnd1 as [Hl _].
    rewrite !elem_of_cons in Hh. rewrite elem_of_cons in Hl.
    split; intros E; [apply Hh|apply Hl]; auto.
  - destruct (run_events_offsets count base (i + 1) (u64 (am + ssize)) ssize k
                ltac:(lia)) as (Hh & Hl & _).
    replace (i + 1 + Z.of_nat k) with (i + Z.of_nat (S k)) in * by lia.
    split; intros E; apply (Hdisj (permission_reg base i));
      [apply Hhead; auto|now rewrite <- E|apply Hhead; auto|now rewrite <- E].
  - destruct (run_events_offsets count base (i + 1) (u64 (am + ssize)) ssize j
                ltac:(lia)) as (_ & _ & Hp).
    replace (i + 1 + Z.of_nat j) with (i + Z.of_nat (S j)) in * by lia.
    split; intros E.
    + apply (Hdisj (higher_re_map_reg base i)); [apply Hhead; auto|now rewrite E].
    + apply (Hdisj (lower_re_map_reg base i)); [apply Hhead; auto|now rewrite E].
  - replace (i + Z.of_nat (S j)) with (i + 1 + Z.of_nat j) by lia.
    replace (i + Z.of_nat (S k)) with (i + 1 + Z.of_nat k) by lia.
    apply (IH base (i + 1) (u64 (am + ssize)) ssize); [exact Hnd2|lia|lia].
Qed.

Lemma cleared_permission_zero count : forall base i (r : gmap Z Z) off,
  off ∈ written_offsets (cleared_permission_events count base i) ->
  apply_writes (cleared_permission_events count base i) r !! off = Some 0.
Proof.
  assert (Hkeep : forall n base i (r : gmap Z Z) off,
            r !! off = Some 0 ->
            apply_writes (cleared_permission_events n base i) r !! off = Some 0).
  { induction n as [|n IH]; intros base i r off Hz; [exact Hz|].
    change (apply_writes (cleared_permission_events (S n) base i) r)
      with (apply_writes (cleared_permission_events n base (i + 1))
              (<[permission_reg base i := 0]> r)).
    apply IH. rewrite lookup_insert. case_decide; [reflexivity|exact Hz]. }
  induction count as [|count IH]; intros base i r off Hoff; [inversion Hoff|].
  change (apply_writes (cleared_permission_events (S count) base i) r)
    with (apply_writes (cleared_permission_events count base (i + 1))
            (<[permission_reg base i := 0]> r)).
  simpl in Hoff. apply elem_of_cons in Hoff as [->|Hoff].
  - apply Hkeep, lookup_insert_eq.
  - now apply IH.
Qed.

(** X2: unmapping withdraws the permission and keeps the translation.  When
    the run a map has programmed is freed by the following unmap, the
    permission register of each of its entries reads zero afterwards while
    its re-map registers still hold the two halves of the address the map
    wrote.  This holds for every segment manager. *)
Theorem unmap_keeps_remap_registers xdev addr size segment_id n a k addr' a' :
  plx_alm_add_entry (a_lut_manager xdev) addr size = (0, segment_id, n, a) ->
  0 <= segment_id -> segment_id + n < 2 ^ 32 ->
  let base := a_lut_array_base xdev in
  let addr_masked :=
    Z.land addr (not64 (u64 (alm_segment_size (a_lut_manager xdev) - 1))) in
  NoDup (written_offsets
           (run_events programmed_entry_events (Z.to_nat n) base segment_id
              addr_masked (alm_segment_size a))) ->
  0 <= k < n ->
  let mapped := (plx_add_a_lut_entry xdev addr size).2 in
  alm_segment_size a <> 0 ->
  addr' < u64 (alm_segments_num a * alm_segment_size a) ->
  plx_alm_del_entry a (u32 (addr' / alm_segment_size a))
  = (segment_id, n, a') ->
  exists unmapped,
    plx_del_a_lut_entry mapped addr' = Some unmapped /\
    reg_val (mmio unmapped) (permission_reg base (segment_id + k)) = 0 /\
    reg_val (mmio unmapped) (higher_re_map_reg base (segment_id + k)) * 2 ^ 32
    + reg_val (mmio unmapped) (lower_re_map_reg base (segment_id + k))
    = u64 (addr_masked + k * alm_segment_size a).
Proof.
  intros Hadd Hs Hfit base addr_masked Hnd Hk mapped Hss Hin Hdel.
  assert (Haddr :
    reg_val (mmio mapped) (higher_re_map_reg base (segment_id + k)) * 2 ^ 32
    + reg_val (mmio mapped) (lower_re_map_reg base (segment_id + k))
    = u64 (addr_masked + k * alm_segment_size a)).
  { destruct (map_register_lookups xdev addr size segment_id n a k
                Hadd Hs Hfit Hnd Hk) as (Hhi & Hlo & _).
    fold base addr_masked mapped in Hhi, Hlo.
    unfold reg_val. rewrite Hhi, Hlo. simpl.
    apply halves_recombine, u64_range. }
  assert (Hm : a_lut_manager mapped = a /\ a_lut_array_base mapped = base).
  { subst mapped. unfold plx_add_a_lut_entry. rewrite Hadd. simpl.
    now split. }
  destruct Hm as [Hma Hmb].
  unfold plx_del_a_lut_entry. rewrite Hma.
  destruct (Z.eqb_spec (alm_segment_size a) 0); [contradiction|].
  destruct (Z.leb_spec (u64 (alm_segments_num a * alm_segment_size a)) addr');
    [lia|].
  rewrite Hdel. destruct (Z.eqb_spec n 0); [lia|].
  eexists; split; [reflexivity|]. simpl. rewrite Hmb.
  rewrite loop_count_exact by lia.
  assert (Hfree : forall o,
            (forall j, (j < Z.to_nat n)%nat ->
               o <> permission_reg base (segment_id + Z.of_nat j)) ->
            reg_val (a_lut_del_loop (Z.to_nat n) base segment_id (mmio mapped)) o
            = reg_val (mmio mapped) o).
  { intros o Ho. unfold reg_val. rewrite a_lut_del_loop_regs; [reflexivity|].
    rewrite cleared_permission_offsets. intros (j & Hj & E).
    now apply (Ho j). }
  split.
  - unfold reg_val. rewrite a_lut_del_loop_apply, cleared_permission_zero;
      [reflexivity|].
    apply cleared_permission_offsets. exists (Z.to_nat k).
    split; [lia|]. f_equal; lia.
  - rewrite !Hfree; [exact Haddr| |];
      intros j Hj;
      destruct (run_events_remap_not_permission (Z.to_nat n) base segment_id
                  addr_masked (alm_segment_size a) j (Z.to_nat k) Hnd Hj
                  ltac:(lia)) as [Hh Hl];
      rewrite Z2Nat.id in Hh, Hl by lia; assumption.
Qed.

(** ** Scratchpads *)

Lemma u32_eq_small a b :
  u32 a = u32 b -> - 2 ^ 32 < a - b < 2 ^ 32 -> a = b.
Proof.
  unfold u32. intros E Hd.
  pose proof (Z.div_mod a (2 ^ 32) ltac:(lia)).
  pose proof (Z.div_mod b (2 ^ 32) ltac:(lia)). lia.
Qed.

(** X3: scratchpads with different indices below [2^30] are different
    registers: a read returns the value last written to the same index and
    is not affected by a write to another index. *)
Theorem spad_write_read xdev idx idx' v :
  0 <= idx < 2 ^ 30 -> 0 <= idx' < 2 ^ 30 ->
  fst (plx_read_spad (plx_write_spad xdev idx v) idx')
  = if decide (idx = idx') then v else fst (plx_read_spad xdev idx').
Proof.
  intros Hi Hi'. unfold plx_read_spad, plx_write_spad, plx_mmio_read; simpl.
  case_decide as E.
  - subst idx'. apply reg_val_write_eq.
  - apply reg_val_write_ne. unfold spad_reg. intros Heq.
    apply u32_eq_small in Heq; lia.
Qed.

(** ** GPIO *)

Lemma testbit_not32 b n :
  0 <= n -> Z.testbit (not32 b) n = (n <? 32) && negb (Z.testbit b n).
Proof.
  intros Hn. unfold not32, u32. destruct (Z.ltb_spec n 32).
  - rewrite Z.mod_pow2_bits_low by lia. now rewrite Z.lnot_spec by lia.
  - now rewrite Z.mod_pow2_bits_high by lia.
Qed.

Lemma testbit_u32_high o n : 0 <= o < 2 ^ 32 -> 32 <= n -> Z.testbit o n = false.
Proof.
  intros Ho Hn. rewrite <- (Z.mod_small o (2 ^ 32)) by exact Ho.
  apply Z.mod_pow2_bits_high. lia.
Qed.

(** Clearing a bit and setting it again leaves the other bits alone. *)
Lemma lor_land_not32 o b :
  0 <= o < 2 ^ 32 -> Z.lor (Z.land o (not32 b)) b = Z.lor o b.
Proof.
  intros Ho. apply Z.bits_inj'. intros n Hn.
  rewrite !Z.lor_spec, Z.land_spec, testbit_not32 by exact Hn.
  destruct (Z.ltb_spec n 32).
  - simpl. destruct (Z.testbit o n), (Z.testbit b n); reflexivity.
  - rewrite (testbit_u32_high o n) by assumption. reflexivity.
Qed.

Lemma land_lor_same x b : Z.land (Z.lor x b) b = b.
Proof.
  apply Z.bits_inj'. intros n Hn. rewrite Z.land_spec, Z.lor_spec.
  destruct (Z.testbit x n), (Z.testbit b n); reflexivity.
Qed.

Lemma land_not32_clear o b : 0 <= b < 2 ^ 32 -> Z.land (Z.land o (not32 b)) b = 0.
Proof.
  intros Hb. apply Z.bits_inj'. intros n Hn.
  rewrite !Z.land_spec, testbit_not32, Z.bits_0 by exact Hn.
  destruct (Z.ltb_spec n 32).
  - simpl. destruct (Z.testbit o n), (Z.testbit b n); reflexivity.
  - rewrite (testbit_u32_high b n) by assumption. apply andb_false_r.
Qed.

Lemma reg_val_insert (r : gmap Z Z) l off v :
  reg_val {| regs := <[off := v]> r; log := l |} off = v.
Proof. unfold reg_val; simpl. now rewrite lookup_insert_eq. Qed.

Lemma signal_bit_log mw bit offset ms :
  log (signal_bit mw bit offset ms)
  = log mw
    ++ [ MmioRead offset;
         MmioWrite (Z.land (reg_val mw offset) (not32 bit)) offset;
         Sleep ms;
         MmioRead offset;
         MmioWrite (Z.lor (Z.land (reg_val mw offset) (not32 bit)) bit) offset ].
Proof.
  unfold signal_bit, plx_mmio_read, plx_mmio_write, barrier; simpl.
  rewrite reg_val_insert. now rewrite <- !app_assoc.
Qed.

Lemma signal_bit_regs mw bit offset ms :
  regs (signal_bit mw bit offset ms)
  = <[offset := Z.lor (Z.land (reg_val mw offset) (not32 bit)) bit]> (regs mw).
Proof.
  unfold signal_bit, plx_mmio_read, plx_mmio_write, barrier; simpl.
  rewrite reg_val_insert. apply insert_insert_eq.
Qed.

Lemma signal_bit_release_eq mw bit offset ms t :
  signal_bit_release mw bit offset ms t = (signal_bit mw bit offset ms, t).
Proof. reflexivity. Qed.

(** ** Card reset *)

(** X4: on a card that is neither VV nor MV [plx_card_reset] changes
    nothing, whatever the cpu, the stored timestamps and the clock: it
    returns at the cpu check, so neither the timestamp nor the GPIO register
    is touched. *)
Theorem card_reset_unknown_card (contexts : gmap (Z * Z) Z) xdev cpu_id t0 t1 t2 :
  Z.land (card_type xdev) VCA_VV = 0 ->
  Z.land (card_type xdev) VCA_MV = 0 ->
  plx_card_reset contexts xdev cpu_id t0 t1 t2 = (contexts, xdev).
Proof.
  intros Hvv Hmv. unfold plx_card_reset, plx_get_cpu_num.
  rewrite Hvv, Hmv. simpl.
  destruct (Z.ltb_spec cpu_id 0); [reflexivity|].
  destruct (Z.leb_spec 0 cpu_id); [reflexivity|lia].
Qed.

(** X5: an accepted reset pulses the cpu's reset bit and nothing else.  The
    log gains the start notification, a read of the GPIO register, a write
    with the bit cleared, the pulse time, a second read, a write with the
    bit set, the 100 ms sleep and the stop notification; afterwards the
    GPIO register holds its old value with the reset bit set and every
    other register is unchanged. *)
Theorem card_reset_gpio_pulse (contexts : gmap (Z * Z) Z) xdev cpu_id
    ts t0 t1 t2 :
  0 <= cpu_id < plx_get_cpu_num xdev ->
  contexts !! (card_id xdev, cpu_id) = Some ts ->
  time_after_eq64 t0 ts
  && time_before64 t0 (u64 (ts + RESET_GRACE_PERIOD_JIFFIES)) = false ->
  0 <= reg_val (mmio xdev) GPIO_REG < 2 ^ 32 ->
  let bit :=
    nth (Z.to_nat cpu_id)
      (if negb (Z.land (card_type xdev) VCA_VV =? 0)
       then plx_reset_bits_vv else plx_reset_bits_mv) 0 in
  let old := reg_val (mmio xdev) GPIO_REG in
  let after := (plx_card_reset contexts xdev cpu_id t0 t1 t2).2 in
  log (mmio after)
  = log (mmio xdev)
    ++ [ LbpResetStart (card_id xdev) cpu_id;
         MmioRead GPIO_REG;
         MmioWrite (Z.land old (not32 bit)) GPIO_REG;
         Sleep RESET_PULSE_TIME;
         MmioRead GPIO_REG;
         MmioWrite (Z.lor old bit) GPIO_REG;
         Sleep 100;
         LbpResetStop (card_id xdev) cpu_id ] /\
  reg_val (mmio after) GPIO_REG = Z.lor old bit /\
  forall off, off <> GPIO_REG ->
    regs (mmio after) !! off = regs (mmio xdev) !! off.
Proof.
  intros Hcpu Hctx Hacc Hold bit old after.
  assert (Hmw : mmio after
                = barrier (LbpResetStop (card_id xdev) cpu_id)
                    (barrier (Sleep 100)
                       (signal_bit
                          (barrier (LbpResetStart (card_id xdev) cpu_id)
                             (mmio xdev))
                          bit GPIO_REG RESET_PULSE_TIME))).
  { subst after bit. unfold plx_card_reset.
    destruct (Z.ltb_spec cpu_id 0); [lia|].
    destruct (Z.leb_spec (plx_get_cpu_num xdev) cpu_id); [lia|].
    simpl. rewrite Hctx, Hacc.
    unfold plx_get_cpu_num in Hcpu.
    destruct (negb (Z.land (card_type xdev) VCA_VV =? 0)); [reflexivity|].
    destruct (negb (Z.land (card_type xdev) VCA_MV =? 0)); [reflexivity|lia]. }
  rewrite Hmw. unfold reg_val at 1. cbn -[signal_bit].
  rewrite signal_bit_log, signal_bit_regs. cbn -[signal_bit].
  change (reg_val (barrier (LbpResetStart (card_id xdev) cpu_id) (mmio xdev))
            GPIO_REG) with old.
  rewrite lor_land_not32 by exact Hold.
  split; [now rewrite <- !app_assoc|].
  split; [now rewrite lookup_insert_eq|].
  intros off Hoff. now rewrite lookup_insert_ne by congruence.
Qed.

(** ** BIOS recovery mode *)

(** X6: on an MV card, enabling the BIOS recovery mode of a cpu clears the
    cpu's recovery bit in the GPIO register and disabling it sets the bit;
    after enable followed by disable the register holds its old value with
    the bit set, and no other register has changed.  On a card that is not
    MV both calls return the device unchanged for every cpu. *)
Theorem bios_recovery_mode_bit xdev cpu_id bit :
  plx_bios_rcv_bits !! Z.to_nat cpu_id = Some bit ->
  0 <= bit < 2 ^ 32 ->
  0 <= reg_val (mmio xdev) GPIO_REG < 2 ^ 32 ->
  let old := reg_val (mmio xdev) GPIO_REG in
  (Z.land (card_type xdev) VCA_MV <> 0 ->
   exists enabled disabled,
     plx_enable_bios_recovery_mode xdev cpu_id = Some enabled /\
     reg_val (mmio enabled) GPIO_REG = Z.land old (not32 bit) /\
     Z.land (reg_val (mmio enabled) GPIO_REG) bit = 0 /\
     plx_disable_bios_recovery_mode enabled cpu_id = Some disabled /\
     reg_val (mmio disabled) GPIO_REG = Z.lor old bit /\
     forall off, off <> GPIO_REG ->
       regs (mmio disabled) !! off = regs (mmio xdev) !! off) /\
  (Z.land (card_type xdev) VCA_MV = 0 ->
   forall cpu, plx_enable_bios_recovery_mode xdev cpu = Some xdev /\
               plx_disable_bios_recovery_mode xdev cpu = Some xdev).
Proof.
  intros Hbit Hb Hold old. split.
  - intros Hmv.
    set (enabled := with_mmio xdev (_clear_bit (mmio xdev) bit GPIO_REG)).
    set (disabled := with_mmio enabled (_set_bit (mmio enabled) bit GPIO_REG)).
    assert (Hen : plx_enable_bios_recovery_mode xdev cpu_id = Some enabled).
    { unfold plx_enable_bios_recovery_mode, plx_turn_rcv_mode.
      destruct (Z.eqb_spec (Z.land (card_type xdev) VCA_MV) 0); [contradiction|].
      simpl. now rewrite Hbit. }
    assert (Hdis : plx_disable_bios_recovery_mode enabled cpu_id = Some disabled).
    { unfold plx_disable_bios_recovery_mode, plx_turn_rcv_mode.
      change (card_type enabled) with (card_type xdev).
      destruct (Z.eqb_spec (Z.land (card_type xdev) VCA_MV) 0); [contradiction|].
      simpl. now rewrite Hbit. }
    assert (Hval : reg_val (mmio enabled) GPIO_REG = Z.land old (not32 bit))
      by apply reg_val_insert.
    exists enabled, disabled.
    split; [exact Hen|]. split; [exact Hval|].
    split; [rewrite Hval; now apply land_not32_clear|].
    split; [exact Hdis|]. split.
    + subst disabled. unfold _set_bit, plx_mmio_read, plx_mmio_write.
      cbn [mmio with_mmio fst snd]. rewrite reg_val_insert, Hval.
      now apply lor_land_not32.
    + intros off Hoff. simpl. now rewrite !lookup_insert_ne by congruence.
  - intros Hmv cpu.
    unfold plx_enable_bios_recovery_mode, plx_disable_bios_recovery_mode.
    rewrite Hmv. now split.
Qed.

(** ** GPIO defaults *)

(** X7: [plx_init_vca_g2_gpios] programs the GPIO defaults once.  With the
    card reset bit part of the default value, the GPIO register has the bit
    set after the call, and a second call only reads the register: no
    register is written and nothing but the read is logged. *)
Theorem init_gpios_once xdev :
  Z.land PLX_MV_DEF_GPIO_VAL PLX_CARD_RESET_BIT <> 0 ->
  let first := plx_init_vca_g2_gpios xdev in
  Z.land (reg_val (mmio first) GPIO_REG) PLX_CARD_RESET_BIT <> 0 /\
  regs (mmio (plx_init_vca_g2_gpios first)) = regs (mmio first) /\
  log (mmio (plx_init_vca_g2_gpios first))
  = log (mmio first) ++ [MmioRead GPIO_REG].
Proof.
  intros Hdef first.
  assert (Hset : Z.land (reg_val (mmio first) GPIO_REG) PLX_CARD_RESET_BIT <> 0).
  { subst first. unfold plx_init_vca_g2_gpios, plx_mmio_read. simpl.
    destruct (Z.eqb_spec (Z.land (reg_val (mmio xdev) GPIO_REG)
                            PLX_CARD_RESET_BIT) 0) as [E|E]; simpl.
    - unfold plx_mmio_write, barrier; simpl. now rewrite reg_val_insert.
    - exact E. }
  split; [exact Hset|].
  unfold plx_init_vca_g2_gpios, plx_mmio_read. simpl.
  destruct (Z.eqb_spec (Z.land (reg_val (mmio first) GPIO_REG)
                          PLX_CARD_RESET_BIT) 0); [contradiction|].
  simpl. now split.
Qed.

(** ** Power button *)

Lemma time_window g ts d :
  0 <= ts < 2 ^ 64 -> 0 <= d < 2 ^ 63 -> 0 <= g <= 2 ^ 63 ->
  time_after_eq64 (u64 (ts + d)) ts && time_before64 (u64 (ts + d)) (u64 (ts + g))
  = (d <? g).
Proof.
  intros Hts Hd Hg. unfold time_after_eq64, time_before64, s64.
  assert (E1 : u64 (u64 (u64 (ts + d) - ts)) = d).
  { unfold u64. rewrite Z.mod_mod by lia.
    rewrite Zminus_mod_idemp_l. replace (ts + d - ts) with d by lia.
    apply Z.mod_small; lia. }
  assert (E2 : u64 (u64 (u64 (ts + d) - u64 (ts + g))) = u64 (d - g)).
  { unfold u64. rewrite Z.mod_mod by lia.
    rewrite Zminus_mod_idemp_l, Zminus_mod_idemp_r. f_equal. lia. }
  rewrite E1, E2.
  destruct (Z.ltb_spec d (2 ^ 63)); [|lia].
  destruct (Z.leb_spec 0 d); [|lia]. simpl.
  destruct (Z.ltb_spec d g).
  - assert (E3 : u64 (d - g) = 2 ^ 64 + d - g).
    { unfold u64. replace (d - g) with (2 ^ 64 + d - g + (-1) * 2 ^ 64) by lia.
      rewrite Z.mod_add by lia. apply Z.mod_small; lia. }
    rewrite E3. destruct (Z.ltb_spec (2 ^ 64 + d - g) (2 ^ 63)); [lia|].
    apply Z.ltb_lt. lia.
  - rewrite (u64_small (d - g)) by lia.
    destruct (Z.ltb_spec (d - g) (2 ^ 63)); [|lia].
    apply Z.ltb_ge. lia.
Qed.

(** X8: after [plx_card_press_power_button] on a valid cpu of an MV card,
    [plx_card_check_power_button_state] returns 2 while less than the power
    grace period has passed since the release of the button, and 0 from then
    on: the press leaves the button bit high and the release time in
    [power_ts]. *)
Theorem power_button_grace xdev (power_ts : gmap Z Z) cpu_id hold t d :
  Z.land (card_type xdev) VCA_MV <> 0 ->
  0 <= cpu_id < plx_get_cpu_num xdev ->
  nth (Z.to_nat cpu_id) plx_power_button_bits 0 <> 0 ->
  0 <= t < 2 ^ 64 -> 0 <= d < 2 ^ 63 ->
  0 <= POWER_GRACE_PERIOD_JIFFIES <= 2 ^ 63 ->
  let pressed := plx_card_press_power_button xdev power_ts cpu_id hold t in
  fst pressed !! cpu_id = Some t /\
  fst (plx_card_check_power_button_state (snd pressed) (fst pressed) cpu_id
         (u64 (t + d)))
  = if d <? POWER_GRACE_PERIOD_JIFFIES then 2 else 0.
Proof.
  intros Hmv Hcpu Hbit Ht Hd Hg pressed.
  subst pressed. unfold plx_card_press_power_button.
  destruct (Z.eqb_spec (Z.land (card_type xdev) VCA_MV) 0); [contradiction|].
  destruct (Z.ltb_spec cpu_id 0); [lia|].
  destruct (Z.leb_spec (plx_get_cpu_num xdev) cpu_id); [lia|].
  cbn -[signal_bit_release]. rewrite signal_bit_release_eq. cbn -[signal_bit].
  split; [apply lookup_insert_eq|].
  unfold plx_card_check_power_button_state. cbn -[signal_bit].
  destruct (Z.eqb_spec (Z.land (card_type xdev) VCA_MV) 0); [contradiction|].
  change (plx_get_cpu_num (with_mmio xdev ?m)) with (plx_get_cpu_num xdev).
  destruct (Z.ltb_spec cpu_id 0); [lia|].
  destruct (Z.leb_spec (plx_get_cpu_num xdev) cpu_id); [lia|].
  cbn -[signal_bit]. unfold plx_mmio_read. cbn -[signal_bit].
  unfold reg_val at 1. rewrite signal_bit_regs, lookup_insert_eq. simpl.
  rewrite land_lor_same.
  destruct (Z.eqb_spec (nth (Z.to_nat cpu_id) plx_power_button_bits 0) 0);
    [contradiction|].
  rewrite lookup_insert_eq. simpl.
  rewrite time_window by lia.
  now destruct (d <? POWER_GRACE_PERIOD_JIFFIES).
Qed.

(** ** Remapping *)

Lemma add_entry_addr_out xdev addr size rc out xdev' :
  plx_add_a_lut_entry xdev addr size = (rc, Some out, xdev') ->
  rc = 0 /\ 0 <= out < 2 ^ 64.
Proof.
  unfold plx_add_a_lut_entry.
  destruct (plx_alm_add_entry _ _ _) as [[[err sid] n] a].
  destruct (negb (err =? 0) && negb (err =? - EEXIST)); [discriminate|].
  intros [= <- <- _]. split; [reflexivity|apply u64_range].
Qed.

(** X9: [plx_iounmap] undoes the pointer arithmetic of [plx_ioremap].  With
    the A-LUT in use, a successful [plx_ioremap] returns [aper.va] plus the
    translated address and [plx_iounmap] of that pointer unmaps exactly that
    translated address; when the map fails [plx_ioremap] returns [NULL].
    Without the A-LUT neither function touches the device and the pointer is
    [aper.va + pa].  This holds for every segment manager. *)
Theorem ioremap_iounmap xdev aper_va pa len rc addr_out mapped :
  plx_add_a_lut_entry xdev pa len = (rc, addr_out, mapped) ->
  (forall out, addr_out = Some out ->
     plx_ioremap xdev true aper_va pa len = (u64 (aper_va + out), mapped) /\
     plx_iounmap mapped true aper_va (u64 (aper_va + out))
     = plx_del_a_lut_entry mapped out) /\
  (addr_out = None ->
     plx_ioremap xdev true aper_va pa len = (0, mapped) /\
     mmio mapped = mmio xdev) /\
  plx_ioremap xdev false aper_va pa len = (u64 (aper_va + pa), xdev) /\
  (forall va, plx_iounmap xdev false aper_va va = Some xdev).
Proof.
  intros Hadd. split; [|split; [|split; [reflexivity|reflexivity]]].
  - intros out ->. destruct (add_entry_addr_out _ _ _ _ _ _ Hadd) as [-> Hout].
    unfold plx_ioremap, plx_iounmap. rewrite Hadd. simpl.
    split; [reflexivity|]. f_equal. unfold u64.
    rewrite Zminus_mod_idemp_l. replace (aper_va + out - aper_va) with out by lia.
    apply Z.mod_small. exact Hout.
  - intros ->. unfold plx_ioremap. rewrite Hadd.
    unfold plx_add_a_lut_entry in Hadd.
    destruct (plx_alm_add_entry _ _ _) as [[[err sid] n] a].
    destruct (negb (err =? 0) && negb (err =? - EEXIST)); [|discriminate].
    injection Hadd as <- <-. now split.
Qed.

(** X14: [plx_card_check_power_button_state] only reads.  Whatever the card,
    the cpu and the clock, no register changes and the log gains at most one
    read of the GPIO register; on a card that is not MV the register window
    is not accessed at all. *)
Theorem power_button_check_reads_only xdev (power_ts : gmap Z Z) cpu_id time :
  let checked :=
    snd (plx_card_check_power_button_state xdev power_ts cpu_id time) in
  regs (mmio checked) = regs (mmio xdev) /\
  (log (mmio checked) = log (mmio xdev)
   \/ log (mmio checked) = log (mmio xdev) ++ [MmioRead GPIO_REG]) /\
  (Z.land (card_type xdev) VCA_MV = 0 -> checked = xdev).
Proof.
  unfold plx_card_check_power_button_state, plx_mmio_read.
  destruct (Z.eqb_spec (Z.land (card_type xdev) VCA_MV) 0) as [Hmv|Hmv]; simpl.
  - destruct (Z.land (card_type xdev) VCA_VV =? 0); simpl; auto.
  - destruct ((cpu_id <? 0) || (plx_get_cpu_num xdev <=? cpu_id)); simpl.
    + split; [reflexivity|]. split; [now left|]. intros; contradiction.
    + destruct (Z.land _ _ =? 0); [|destruct (_ && _)]; simpl;
        (split; [reflexivity|]; split; [now right|]; intros; contradiction).
Qed.

(** X15: the segment index [plx_del_a_lut_entry] derives from a translated
    address is the [segment_id] [plx_add_a_lut_entry] built the address
    from, when the manager keeps its segment size, returns a [segment_id]
    that fits an [u32], and the segment lies below [2^64].  This holds for
    every segment manager. *)
Theorem unmap_finds_segment_of_map xdev addr size err segment_id n a :
  plx_alm_add_entry (a_lut_manager xdev) addr size = (err, segment_id, n, a) ->
  err = 0 \/ err = - EEXIST ->
  alm_segment_size a = alm_segment_size (a_lut_manager xdev) ->
  0 < alm_segment_size a ->
  0 <= segment_id < 2 ^ 32 ->
  (segment_id + 1) * alm_segment_size a <= 2 ^ 64 ->
  0 <= addr ->
  exists out mapped,
    plx_add_a_lut_entry xdev addr size = (0, Some out, mapped) /\
    segment_id * alm_segment_size a <= out
    < (segment_id + 1) * alm_segment_size a /\
    u32 (out / alm_segment_size (a_lut_manager mapped)) = segment_id.
Proof.
  intros Hadd Herr Hsame Hs Hsid Hfit Haddr.
  set (S := alm_segment_size a) in *.
  assert (Hmask : u64 (S - 1) = S - 1) by (apply u64_small; nia).
  assert (Hoff : 0 <= Z.land addr (u64 (S - 1)) < S).
  { rewrite Hmask. split; [apply Z.land_nonneg; now left|].
    pose proof (land_le_r addr (S - 1) ltac:(lia)). lia. }
  assert (Hout : u64 (segment_id * S + Z.land addr (u64 (S - 1)))
                 = segment_id * S + Z.land addr (u64 (S - 1)))
    by (apply u64_small; nia).
  assert (Hmap : exists mw,
            plx_add_a_lut_entry xdev addr size
            = (0, Some (segment_id * S + Z.land addr (u64 (S - 1))),
               with_mmio (with_alm xdev a) mw)).
  { unfold plx_add_a_lut_entry. rewrite Hadd. rewrite <- Hsame. fold S.
    rewrite Hout.
    destruct Herr as [-> | ->]; simpl.
    - destruct (a_lut_program_loop _ _ _ _ _ _ _) as [last mw]. eauto.
    - eauto. }
  destruct Hmap as [mw Hmap]. eexists _, _. split; [exact Hmap|].
  split; [nia|]. simpl. fold S.
  assert (Hdiv : (segment_id * S + Z.land addr (u64 (S - 1))) / S = segment_id)
    by (symmetry;
        apply (Z.div_unique_pos _ _ segment_id (Z.land addr (u64 (S - 1))));
        lia).
  rewrite Hdiv. apply u32_small; lia.
Qed.

End MoreFacts.

(** ** Register bases *)

Lemma hw_port_id_bit val : hw_port_id val = 0 \/ hw_port_id val = 1.
Proof.
  unfold hw_port_id.
  assert (E : Z.land val 1 = val mod 2) by exact (Z.land_ones val 1 ltac:(lia)).
  pose proof (Z.mod_pos_bound val 2 ltac:(lia)). lia.
Qed.

Lemma hw_link_side_bit val : hw_link_side val = 0 \/ hw_link_side val = 1.
Proof. unfold hw_link_side. destruct (_ =? 0); auto. Qed.

(** X10: for every value of the configuration dword, [reg_base] and
    [reg_base_peer] as [plx_hw_init] computes them are 4 KiB aligned blocks
    between 0x3C000 and 0x3F000, exactly 0x1000 apart; and two devices get
    the same [reg_base] only if they are on the same side of the same
    port. *)
Theorem reg_base_blocks val val' :
  0x3C000 <= hw_reg_base val <= 0x3F000 /\
  hw_reg_base val mod 0x1000 = 0 /\
  hw_reg_base_peer val
  = (if hw_link_side val =? 0 then hw_reg_base val + 0x1000
     else hw_reg_base val - 0x1000) /\
  (hw_reg_base val = hw_reg_base val' ->
   hw_link_side val = hw_link_side val' /\ hw_port_id val = hw_port_id val').
Proof.
  unfold hw_reg_base, hw_reg_base_peer.
  destruct (hw_port_id_bit val) as [-> | ->],
           (hw_link_side_bit val) as [-> | ->],
           (hw_port_id_bit val') as [-> | ->],
           (hw_link_side_bit val') as [-> | ->];
    vm_compute; repeat split; intros; congruence.
Qed.


(** ** RID LUT words *)

Lemma testbit_small x w k :
  0 <= x < 2 ^ w -> 0 <= w <= k -> Z.testbit x k = false.
Proof.
  intros Hx Hk. rewrite <- (Z.mod_small x (2 ^ w)) by exact Hx.
  apply Z.mod_pow2_bits_high. lia.
Qed.

Lemma land_zero_bit e m k :
  Z.land e m = 0 -> Z.testbit m k = true -> Z.testbit e k = false.
Proof.
  intros H Hm. apply (f_equal (fun z => Z.testbit z k)) in H.
  rewrite Z.land_spec, Hm, Z.bits_0, andb_true_r in H. exact H.
Qed.

Ltac enum8 n :=
  assert (n = 0 \/ n = 1 \/ n = 2 \/ n = 3 \/ n = 4 \/ n = 5 \/ n = 6 \/ n = 7)
    as [->|[->|[->|[->|[->|[->|[->| ->]]]]]]] by lia.
Ltac enum4 n :=
  assert (n = 0 \/ n = 1 \/ n = 2 \/ n = 3) as [->|[->|[->| ->]]] by lia.

(** Bits of a closed index: evaluate the index, drop what the ranges of the
    fields and the enable word exclude. *)
Ltac field_bits HE Hb Hc :=
  repeat match goal with
  | |- context [Z.testbit _ ?k] =>
      let v := eval vm_compute in k in
      lazymatch k with
      | v => fail
      | _ => change k with v
      end
  end;
  rewrite ?Z.testbit_neg_r by lia;
  repeat match goal with
  | |- context [Z.testbit 15 ?k] =>
      let b := eval vm_compute in (Z.testbit 15 k) in
      change (Z.testbit 15 k) with b
  | |- context [Z.testbit 255 ?k] =>
      let b := eval vm_compute in (Z.testbit 255 k) in
      change (Z.testbit 255 k) with b
  end;
  rewrite ?(land_zero_bit _ _ _ HE) by reflexivity;
  rewrite ?(testbit_small _ 8 _ Hb), ?(testbit_small _ 8 _ Hc) by lia;
  repeat first [ rewrite orb_false_r | rewrite andb_false_r
               | rewrite andb_true_r | rewrite orb_false_l ];
  try reflexivity.

Section RidLut.
Context {C : plx_consts} {G : plx_gpio_consts}.

Lemma rid_lut_bit bus dev cbus cdev k :
  0 <= k < 32 ->
  Z.testbit (plx_rid_lut bus dev cbus cdev) k
  = Z.testbit bus (k - 24) || (Z.testbit dev (k - 19) && Z.testbit 15 (k - 19))
    || Z.testbit cbus (k - 8) || (Z.testbit cdev (k - 3) && Z.testbit 15 (k - 3))
    || Z.testbit PLX_RID_LUT_ENABLE k.
Proof.
  intros Hk. unfold plx_rid_lut, u32.
  rewrite Z.mod_pow2_bits_low by lia.
  rewrite !Z.lor_spec, !Z.shiftl_spec, !Z.land_spec by lia. reflexivity.
Qed.

Lemma rid_lut_dma_bit bus dev k :
  0 <= k < 32 ->
  Z.testbit (plx_rid_lut_dma bus dev) k
  = Z.testbit bus (k - 8) || (Z.testbit dev (k - 3) && Z.testbit 15 (k - 3))
    || Z.testbit PLX_RID_LUT_ENABLE_1 k.
Proof.
  intros Hk. unfold plx_rid_lut_dma, u32.
  rewrite Z.mod_pow2_bits_low by lia.
  rewrite !Z.lor_spec, !Z.shiftl_spec, !Z.land_spec by lia. reflexivity.
Qed.

(** X11: the word [plx_rid_lut] builds carries its four arguments in
    separate fields, as long as the enable bits lie outside them: bits
    24-31 hold the root port bus, bits 19-22 the root port device modulo 16,
    bits 8-15 the root complex bus and bits 3-6 the root complex device
    modulo 16.  Device numbers 16 to 31 therefore give the word of the
    device number minus 16. *)
Theorem rid_lut_fields bus dev cbus cdev :
  0 <= bus < 2 ^ 8 -> 0 <= dev < 2 ^ 8 ->
  0 <= cbus < 2 ^ 8 -> 0 <= cdev < 2 ^ 8 ->
  Z.land PLX_RID_LUT_ENABLE 0xFF78FF78 = 0 ->
  let rid := plx_rid_lut bus dev cbus cdev in
  Z.land (Z.shiftr rid 24) 0xff = bus /\
  Z.land (Z.shiftr rid 19) 0xf = dev mod 16 /\
  Z.land (Z.shiftr rid 8) 0xff = cbus /\
  Z.land (Z.shiftr rid 3) 0xf = cdev mod 16.
Proof.
  intros Hb Hd Hc Hcd HE rid. subst rid.
  assert (E16 : forall x, x mod 16 = Z.land x 15)
    by (intros x; symmetry; exact (Z.land_ones x 4 ltac:(lia))).
  rewrite !E16.
  repeat split; apply Z.bits_inj'; intros n Hn;
    rewrite ?Z.land_spec, Z.shiftr_spec by lia.
  - destruct (Z.lt_ge_cases n 8).
    + rewrite rid_lut_bit by lia. enum8 n; field_bits HE Hb Hc.
    + rewrite (testbit_small 255 8 n), (testbit_small bus 8 n) by lia.
      apply andb_false_r.
  - destruct (Z.lt_ge_cases n 4).
    + rewrite rid_lut_bit by lia. enum4 n; field_bits HE Hb Hc.
    + rewrite (testbit_small 15 4 n) by lia. now rewrite !andb_false_r.
  - destruct (Z.lt_ge_cases n 8).
    + rewrite rid_lut_bit by lia. enum8 n; field_bits HE Hb Hc.
    + rewrite (testbit_small 255 8 n), (testbit_small cbus 8 n) by lia.
      apply andb_false_r.
  - destruct (Z.lt_ge_cases n 4).
    + rewrite rid_lut_bit by lia. enum4 n; field_bits HE Hb Hc.
    + rewrite (testbit_small 15 4 n) by lia. now rewrite !andb_false_r.
Qed.

(** X12: the word [plx_rid_lut_dma] builds carries the DMA bus in bits 8-15
    and the DMA device modulo 16 in bits 3-6, as long as the enable bits lie
    outside them. *)
Theorem rid_lut_dma_fields bus dev :
  0 <= bus < 2 ^ 8 -> 0 <= dev < 2 ^ 8 ->
  Z.land PLX_RID_LUT_ENABLE_1 0xFF78 = 0 ->
  let rid := plx_rid_lut_dma bus dev in
  Z.land (Z.shiftr rid 8) 0xff = bus /\
  Z.land (Z.shiftr rid 3) 0xf = dev mod 16.
Proof.
  intros Hb Hd HE rid. subst rid.
  assert (E16 : forall x, x mod 16 = Z.land x 15)
    by (intros x; symmetry; exact (Z.land_ones x 4 ltac:(lia))).
  rewrite !E16.
  repeat split; apply Z.bits_inj'; intros n Hn;
    rewrite ?Z.land_spec, Z.shiftr_spec by lia.
  - destruct (Z.lt_ge_cases n 8).
    + rewrite rid_lut_dma_bit by lia. enum8 n; field_bits HE Hb Hb.
    + rewrite (testbit_small 255 8 n), (testbit_small bus 8 n) by lia.
      apply andb_false_r.
  - destruct (Z.lt_ge_cases n 4).
    + rewrite rid_lut_dma_bit by lia. enum4 n; field_bits HE Hb Hb.
    + rewrite (testbit_small 15 4 n) by lia. now rewrite !andb_false_r.
Qed.

End RidLut.

(** ** EEPROM images *)

Section EepromFacts.
Context {E : plx_eep_consts}.

Lemma load8_app_l body tail off :
  0 <= off < Z.of_nat (length body) ->
  load8 (body ++ tail) off = load8 body off.
Proof. intros H. unfold load8. apply app_nth1. lia. Qed.

Lemma load16_app_l body tail off :
  0 <= off -> off + 2 <= Z.of_nat (length body) ->
  load16 (body ++ tail) off = load16 body off.
Proof. intros. unfold load16. now rewrite !load8_app_l by lia. Qed.

Lemma load32_app_l body tail off :
  0 <= off -> off + 4 <= Z.of_nat (length body) ->
  load32 (body ++ tail) off = load32 body off.
Proof. intros. unfold load32. now rewrite !load16_app_l by lia. Qed.

Lemma load8_app_r body tail k :
  0 <= k ->
  load8 (body ++ tail) (Z.of_nat (length body) + k) = load8 tail k.
Proof.
  intros Hk. unfold load8. rewrite app_nth2 by lia. f_equal. lia.
Qed.

Lemma load32_le32 body v :
  0 <= v < 2 ^ 32 -> load32 (body ++ le32 v) (Z.of_nat (length body)) = v.
Proof.
  intros Hv. unfold load32, load16.
  rewrite <- (Z.add_0_r (Z.of_nat (length body))) at 1.
  rewrite <- !Z.add_assoc. rewrite !load8_app_r by lia.
  unfold load8, le32. simpl.
  Z.to_euclidean_division_equations. lia.
Qed.

(** The CRC loop reads nothing past [crc_end_offset] when the covered range
    is a multiple of four bytes, or two bytes more. *)
Lemma crc_loop_with_app word body tail : forall count crc_offset crc,
  0 <= crc_offset ->
  count = crc_loop_count crc_offset (Z.of_nat (length body)) ->
  (Z.of_nat (length body) - crc_offset) mod 4 = 0
  \/ (Z.of_nat (length body) - crc_offset) mod 4 = 2 ->
  crc_loop_with word count (body ++ tail) crc_offset (Z.of_nat (length body)) crc
  = crc_loop_with word count body crc_offset (Z.of_nat (length body)) crc.
Proof.
  induction count as [|count IH]; intros off crc Hoff Hcount Hmod;
    [reflexivity|].
  unfold crc_loop_count in Hcount. cbn [crc_loop_with].
  assert (Hleft : 2 <= Z.of_nat (length body) - off)
    by (Z.to_euclidean_division_equations; lia).
  rewrite IH.
  - destruct (Z.eqb_spec (Z.of_nat (length body) - off) 2).
    + now rewrite load16_app_l by lia.
    + rewrite load32_app_l; [reflexivity|lia|].
      Z.to_euclidean_division_equations. lia.
  - lia.
  - unfold crc_loop_count. Z.to_euclidean_division_equations. lia.
  - Z.to_euclidean_division_equations. lia.
Qed.

Lemma crc_word_range crc next : 0 <= crc_word crc next < 2 ^ 32.
Proof.
  unfold crc_word. change (seq 0 32) with (seq 0 31 ++ [31%nat]).
  rewrite fold_left_app. cbn [fold_left]. unfold crc_bit_step. apply u32_range.
Qed.

Lemma crc_loop_with_range word count : forall data off e crc,
  (forall c x, 0 <= word c x < 2 ^ 32) ->
  0 <= crc < 2 ^ 32 -> 0 <= crc_loop_with word count data off e crc < 2 ^ 32.
Proof.
  induction count as [|count IH]; intros data off e crc Hw Hcrc; [exact Hcrc|].
  cbn [crc_loop_with]. apply IH; [exact Hw|apply Hw].
Qed.

(** X13: an image laid out as the driver documents it passes
    [eeprom_validate]: a four-byte header with the validation signature and
    the size of the configuration, a non-empty configuration whose size is a
    multiple of the alignment, and the CRC [eeprom_check_crc] computes over
    what precedes the trailer, stored least significant byte first.  The CRC
    does not depend on the trailer because the range it covers is a multiple
    of four bytes or two bytes more. *)
Theorem eeprom_image_validates flags (config : list Z) :
  PLX_EEP_HEADER_LENGTH_BYTE = 4 -> PLX_EEP_CRC_LENGTH_BYTE = 4 ->
  0 <= PLX_EEP_START_CRC_OFFSET ->
  let size := Z.of_nat (length config) in
  0 < size < 2 ^ 16 ->
  size mod PLX_EEP_CONFIGURATION_ALIGNMENT_BYTE = 0 ->
  (4 + size - PLX_EEP_START_CRC_OFFSET) mod 4 = 0
  \/ (4 + size - PLX_EEP_START_CRC_OFFSET) mod 4 = 2 ->
  eeprom_validate (eeprom_image flags config) (4 + size + 4)
  = PLX_EEP_STATUS_OK.
Proof.
  intros Hh Hc Hstart size Hsize Halign Hmod.
  unfold eeprom_image. fold size.
  set (body := [PLX_EEP_VALIDATION_HEADER; flags; size mod 2 ^ 8;
                (size / 2 ^ 8) mod 2 ^ 8] ++ config).
  assert (Hlen : Z.of_nat (length body) = 4 + size)
    by (subst body size; rewrite length_app; simpl length; lia).
  set (crc := eeprom_calc_crc body (Z.of_nat (length body) + 4)).
  assert (Hcrc : 0 <= crc < 2 ^ 32).
  { subst crc. unfold eeprom_calc_crc, crc_loop.
    apply crc_loop_with_range; [apply crc_word_range|lia]. }
  assert (Hend : u32 (4 + size + 4 - PLX_EEP_CRC_LENGTH_BYTE)
                 = Z.of_nat (length body))
    by (rewrite Hc, Hlen; replace (4 + size + 4 - 4) with (4 + size) by lia;
        apply u32_small; lia).
  assert (Hsig : load8 (body ++ le32 crc) 0 = PLX_EEP_VALIDATION_HEADER)
    by reflexivity.
  assert (Hcfg : load16 (body ++ le32 crc) 2 = size).
  { unfold load16, load8. subst body. simpl.
    Z.to_euclidean_division_equations. lia. }
  unfold eeprom_validate. rewrite Hsig, Hcfg, Hh, Hc.
  destruct (Z.leb_spec (4 + size + 4) (4 + 4)); [lia|].
  rewrite Halign. cbn [Z.eqb negb].
  rewrite (u64_small (4 + size + 4 - 4 - 4)) by lia.
  replace (4 + size + 4 - 4 - 4) with size by lia.
  rewrite !Z.eqb_refl. cbn [negb].
  unfold eeprom_check_crc, eeprom_calc_crc. rewrite Hend.
  rewrite load32_le32 by exact Hcrc. unfold crc_loop.
  rewrite crc_loop_with_app; [|exact Hstart|reflexivity|now rewrite Hlen].
  subst crc. unfold eeprom_calc_crc, crc_loop.
  replace (u32 (Z.of_nat (length body) + 4 - PLX_EEP_CRC_LENGTH_BYTE))
    with (Z.of_nat (length body))
    by (rewrite Hc;
        replace (Z.of_nat (length body) + 4 - 4) with (Z.of_nat (length body))
          by lia;
        symmetry; apply u32_small; lia).
  now rewrite Z.eqb_refl.
Qed.

End EepromFacts.

(** * The functions on the sample device *)

Section Examples.
#[local] Existing Instance sample_consts.

Example sample_map_log :
  log (mmio sample_mapped)
  = [ MmioWrite 0 0x38400; MmioWrite 0x1000 0x38000; Wmb; MmioWrite 3 0x38800;
      MmioWrite 0 0x38404; MmioWrite 0x2000 0x38004; Wmb; MmioWrite 3 0x38804;
      Mb; MmioRead 0x38804 ].
Proof. reflexivity. Qed.

Example sample_map_manager :
  entries (a_lut_manager sample_mapped)
  = [ALLOCATED 1 0 2 0x1000; ALLOCATED 1 0 2 0x1000; FREE; FREE].
Proof. reflexivity. Qed.

Lemma map_unmap_roundtrip_witness :
  plx_add_a_lut_entry sample_dev 0x1800 0x900 = (0, Some 0x800, sample_mapped) /\
  exists xdev2,
    plx_del_a_lut_entry sample_mapped 0x800 = Some xdev2 /\
    a_lut_manager xdev2 = a_lut_manager sample_dev.
Proof.
  assert (Hmap : plx_add_a_lut_entry sample_dev 0x1800 0x900
                 = (0, Some 0x800, sample_mapped)) by (vm_compute; reflexivity).
  split; [exact Hmap|].
  apply (map_unmap_roundtrip sample_dev 0x1800 0x900 0x800 sample_mapped).
  - unfold alm_wf; vm_compute; repeat split; reflexivity.
  - lia.
  - lia.
  - exact Hmap.
Defined.

Lemma map_translated_address_witness :
  0x800 = 0 * segment_size (a_lut_manager sample_dev)
          + 0x1800 mod segment_size (a_lut_manager sample_dev) /\
  forall size', 0 < size' ->
    alm_segments_needed (a_lut_manager sample_dev) 0x1800 size'
    = alm_segments_needed (a_lut_manager sample_dev) 0x1800 0x900 ->
    exists xdev2,
      plx_add_a_lut_entry sample_mapped 0x1800 size' = (0, Some 0x800, xdev2).
Proof.
  apply (map_translated_address sample_dev 0x1800 0x900 0x800 sample_mapped
           0 0 2 (a_lut_manager sample_mapped) 12).
  - unfold alm_wf; vm_compute; repeat split; reflexivity.
  - lia.
  - reflexivity.
  - lia.
  - lia.
  - vm_compute; reflexivity.
  - vm_compute; reflexivity.
Defined.

Lemma entry_offset_two_arrays_injective_witness :
  two_array_layout 256 /\
  plx_get_a_lut_entry_offset 5 = 5 * 4 /\
  plx_get_a_lut_entry_offset 200
  = PLX_A_LUT_ARRAY_OFFSET + (200 mod PLX_A_LUT_MAX_ARRAY) * 4 /\
  (plx_get_a_lut_entry_offset 5 = plx_get_a_lut_entry_offset 200 -> 5 = 200).
Proof.
  assert (H : two_array_layout 256)
    by (unfold two_array_layout; simpl; lia).
  destruct (entry_offset_two_arrays_injective 256 H) as (H1 & H2 & H3).
  split; [exact H|]. split; [apply H1; simpl; lia|].
  split; [apply H2; simpl; lia|]. apply H3; lia.
Defined.

Lemma map_program_sequence_witness :
  exists out xdev',
    plx_add_a_lut_entry sample_dev 0x1800 0x900 = (0, Some out, xdev') /\
    log (mmio xdev')
    = log (mmio sample_dev)
      ++ run_events programmed_entry_events (Z.to_nat 2)
           (a_lut_array_base sample_dev) 0
           (Z.land 0x1800
              (not64 (u64 (alm_segment_size (a_lut_manager sample_dev) - 1))))
           (alm_segment_size (a_lut_manager sample_mapped))
      ++ [Mb; MmioRead (permission_reg (a_lut_array_base sample_dev)
                          (0 + 2 - 1))].
Proof.
  refine (map_program_sequence sample_dev 0x1800 0x900 0 2
            (a_lut_manager sample_mapped) _ _ _ _ _).
  - vm_compute; reflexivity.
  - lia.
  - lia.
  - lia.
  - vm_compute; lia.
Defined.

(** The order of the specification is not the order of the code: on the
    sample device the write barrier comes after the low half, not between
    the two halves. *)
Lemma map_program_sequence_spec_order_fails :
  log (mmio sample_mapped)
  <> log (mmio sample_dev)
     ++ run_events spec_entry_events 2 0x38000 0 0x1000 0x1000
     ++ [Mb; MmioRead (permission_reg 0x38000 1)].
Proof. vm_compute. discriminate. Qed.

Lemma clear_entry_writes_witness :
  plx_alm_del_entry (a_lut_manager sample_mapped)
    (u32 (0x800 / alm_segment_size (a_lut_manager sample_mapped)))
  = (0, 2, a_lut_manager sample_unmapped) /\
  (exists xdev',
     plx_del_a_lut_entry sample_mapped 0x800 = Some xdev' /\
     a_lut_manager xdev' = a_lut_manager sample_unmapped /\
     log (mmio xdev')
     = log (mmio sample_mapped)
       ++ cleared_permission_events (Z.to_nat 2)
            (a_lut_array_base sample_mapped) 0 /\
     (forall k, 0 <= k < 2 ->
        reg_val (mmio xdev')
          (permission_reg (a_lut_array_base sample_mapped) (0 + k)) = 0) /\
     (forall off,
        (forall k, 0 <= k < 2 ->
           off <> permission_reg (a_lut_array_base sample_mapped) (0 + k)) ->
        regs (mmio xdev') !! off = regs (mmio sample_mapped) !! off)) /\
  (let cleared := plx_a_lut_clear sample_mapped 0x38000 in
   log (mmio cleared)
   = log (mmio sample_mapped)
     ++ cleared_entry_events
          (Z.to_nat (alm_segments_num (a_lut_manager cleared))) 0x38000 0 /\
   forall i, 0 <= i < alm_segments_num (a_lut_manager cleared) ->
     reg_val (mmio cleared) (permission_reg 0x38000 i) = 0 /\
     reg_val (mmio cleared) (higher_re_map_reg 0x38000 i) = 0 /\
     reg_val (mmio cleared) (lower_re_map_reg 0x38000 i) = 0).
Proof.
  assert (H : plx_alm_del_entry (a_lut_manager sample_mapped)
                (u32 (0x800 / alm_segment_size (a_lut_manager sample_mapped)))
              = (0, 2, a_lut_manager sample_unmapped))
    by (vm_compute; reflexivity).
  split; [exact H|].
  refine (clear_entry_writes sample_mapped 0x800 0 2
            (a_lut_manager sample_unmapped) 0x38000 _ _ H _ _ _).
  - vm_compute; discriminate.
  - vm_compute; reflexivity.
  - lia.
  - lia.
  - vm_compute; reflexivity.
Defined.

Example sample_unmap_log :
  log (mmio sample_unmapped)
  = log (mmio sample_mapped) ++ [MmioWrite 0 0x38800; MmioWrite 0 0x38804].
Proof. reflexivity. Qed.

(** [plx_a_lut_clear] does not leave the re-map registers alone: after it
    the higher re-map register of entry 0 no longer holds what the map had
    written. *)
Lemma clear_all_changes_remap :
  reg_val (mmio sample_mapped_high) (higher_re_map_reg 0x38000 0) = 1 /\
  reg_val (mmio (plx_a_lut_clear sample_mapped_high 0x38000))
    (higher_re_map_reg 0x38000 0)
  <> reg_val (mmio sample_mapped_high) (higher_re_map_reg 0x38000 0).
Proof. split; [reflexivity|]. vm_compute. discriminate. Qed.

Lemma unmap_out_of_range_witness :
  plx_del_a_lut_entry sample_mapped 0x4000 = Some sample_mapped.
Proof.
  apply (unmap_out_of_range sample_mapped 0x4000); vm_compute;
    first [reflexivity | discriminate].
Defined.

Lemma map_no_space_no_write_witness :
  plx_alm_add_entry (a_lut_manager sample_full_dev) 0x1800 0x900
  = (- ENOSPC, 0, 0, a_lut_manager sample_full_dev) /\
  exists xdev',
    plx_add_a_lut_entry sample_full_dev 0x1800 0x900 = (- ENOMEM, None, xdev') /\
    mmio xdev' = mmio sample_full_dev.
Proof.
  assert (H : plx_alm_add_entry (a_lut_manager sample_full_dev) 0x1800 0x900
              = (- ENOSPC, 0, 0, a_lut_manager sample_full_dev))
    by (vm_compute; reflexivity).
  split; [exact H|].
  apply (map_no_space_no_write sample_full_dev 0x1800 0x900 _ _ _ _ H);
    vm_compute; discriminate.
Defined.

Lemma unmap_clears_on_last_reference_witness :
  exists xdev',
    plx_del_a_lut_entry sample_mapped 0x800 = Some xdev' /\
    (1%positive <> 1%positive ->
     mmio xdev' = mmio sample_mapped /\
     entries (a_lut_manager xdev')
     = alter_range segment_decr 0 2 (entries (a_lut_manager sample_mapped))) /\
    (1%positive = 1%positive ->
     log (mmio xdev')
     = log (mmio sample_mapped)
       ++ cleared_permission_events 2 (a_lut_array_base sample_mapped) 0 /\
     entries (a_lut_manager xdev')
     = alter_range (fun _ => FREE) 0 2 (entries (a_lut_manager sample_mapped))).
Proof.
  apply (unmap_clears_on_last_reference sample_mapped 0x800 1 0 2 0x1000).
  - unfold alm_wf; vm_compute; repeat split; reflexivity.
  - vm_compute; split; [discriminate|reflexivity].
  - vm_compute; reflexivity.
  - vm_compute; lia.
Defined.

(** With two references the first unmap writes nothing and the second
    clears the two permission registers. *)
Example unmap_shared_run :
  let twice := (plx_add_a_lut_entry sample_mapped 0x1800 0x900).2 in
  (fun d => drop 10 (log (mmio d))) <$> plx_del_a_lut_entry twice 0x800
  = Some [] /\
  (fun d => drop 10 (log (mmio d)))
    <$> (plx_del_a_lut_entry twice 0x800 ≫= fun d => plx_del_a_lut_entry d 0x800)
  = Some [MmioWrite 0 0x38800; MmioWrite 0 0x38804].
Proof. split; reflexivity. Qed.

Lemma card_reset_grace_period_witness :
  let accepted :=
    plx_card_reset {[ (0, 1) := 5 ]} sample_dev 1 10000 10001 10030 in
  fst accepted !! (card_id sample_dev, 1) = Some 10030 /\
  log (mmio (snd accepted)) <> log (mmio sample_dev) /\
  plx_card_reset (fst accepted) (snd accepted) 1 (u64 (10030 + 10)) 0 0
  = accepted.
Proof.
  apply (card_reset_grace_period {[ (0, 1) := 5 ]} sample_dev 1 5
           10000 10001 10030 10 0 0).
  - vm_compute; split; [discriminate|reflexivity].
  - vm_compute; reflexivity.
  - vm_compute; reflexivity.
  - lia.
  - simpl; lia.
  - simpl; lia.
Defined.

Lemma dp_addr_roundtrip_witness :
  fst (plx_get_dp_addr (plx_set_dp_addr sample_dev 0x1234567890abcdef))
  = 0x1234567890abcdef.
Proof.
  apply (dp_addr_roundtrip sample_dev 0x1234567890abcdef).
  - lia.
  - vm_compute; lia.
Defined.

End Examples.

(** * The further functions on the sample device *)

Section MoreExamples.
#[local] Existing Instance sample_consts.
#[local] Existing Instance sample_gpio_consts.
#[local] Existing Instance sample_eep_consts.

Lemma sample_run_nodup :
  NoDup (written_offsets
           (run_events programmed_entry_events (Z.to_nat 2)
              (a_lut_array_base sample_dev) 0
              (Z.land 0x1800
                 (not64 (u64 (alm_segment_size (a_lut_manager sample_dev) - 1))))
              (alm_segment_size (a_lut_manager sample_mapped)))).
Proof. refine (bool_decide_unpack _ _). vm_compute. exact I. Qed.

Lemma map_programs_registers_witness :
  reg_val (mmio (plx_add_a_lut_entry sample_dev 0x1800 0x900).2)
    (higher_re_map_reg (a_lut_array_base sample_dev) (0 + 1)) * 2 ^ 32
  + reg_val (mmio (plx_add_a_lut_entry sample_dev 0x1800 0x900).2)
      (lower_re_map_reg (a_lut_array_base sample_dev) (0 + 1))
  = u64 (Z.land 0x1800
           (not64 (u64 (alm_segment_size (a_lut_manager sample_dev) - 1)))
         + 1 * alm_segment_size (a_lut_manager sample_mapped)) /\
  reg_val (mmio (plx_add_a_lut_entry sample_dev 0x1800 0x900).2)
    (permission_reg (a_lut_array_base sample_dev) (0 + 1))
  = Z.lor PLX_A_LUT_PERMISSION_READ_ENABLE PLX_A_LUT_PERMISSION_WRITE_ENABLE.
Proof.
  refine (map_programs_registers sample_dev 0x1800 0x900 0 2
            (a_lut_manager sample_mapped) 1 _ _ _ sample_run_nodup _).
  - vm_compute; reflexivity.
  - lia.
  - lia.
  - lia.
Defined.

Example sample_second_entry_address :
  u64 (Z.land 0x1800
         (not64 (u64 (alm_segment_size (a_lut_manager sample_dev) - 1)))
       + 1 * alm_segment_size (a_lut_manager sample_mapped)) = 0x2000.
Proof. reflexivity. Qed.

Lemma unmap_keeps_remap_registers_witness :
  exists unmapped,
    plx_del_a_lut_entry (plx_add_a_lut_entry sample_dev 0x1800 0x900).2 0x800
    = Some unmapped /\
    reg_val (mmio unmapped)
      (permission_reg (a_lut_array_base sample_dev) (0 + 1)) = 0 /\
    reg_val (mmio unmapped)
      (higher_re_map_reg (a_lut_array_base sample_dev) (0 + 1)) * 2 ^ 32
    + reg_val (mmio unmapped)
        (lower_re_map_reg (a_lut_array_base sample_dev) (0 + 1))
    = u64 (Z.land 0x1800
             (not64 (u64 (alm_segment_size (a_lut_manager sample_dev) - 1)))
           + 1 * alm_segment_size (a_lut_manager sample_mapped)).
Proof.
  refine (unmap_keeps_remap_registers sample_dev 0x1800 0x900 0 2
            (a_lut_manager sample_mapped) 1 0x800
            (a_lut_manager sample_unmapped) _ _ _ sample_run_nodup _ _ _ _).
  - vm_compute; reflexivity.
  - lia.
  - lia.
  - lia.
  - vm_compute; discriminate.
  - vm_compute; reflexivity.
  - vm_compute; reflexivity.
Defined.

Lemma spad_write_read_witness :
  fst (plx_read_spad (plx_write_spad sample_dev 2 5) 3)
  = if decide (2 = 3) then 5 else fst (plx_read_spad sample_dev 3).
Proof. refine (spad_write_read sample_dev 2 3 5 _ _); lia. Defined.

Lemma card_reset_unknown_card_witness :
  plx_card_reset {[ (0, 1) := 5 ]} sample_unknown_dev 1 10000 10001 10030
  = ({[ (0, 1) := 5 ]}, sample_unknown_dev).
Proof.
  refine (card_reset_unknown_card {[ (0, 1) := 5 ]} sample_unknown_dev 1
            10000 10001 10030 _ _); reflexivity.
Defined.

Lemma card_reset_gpio_pulse_witness :
  let bit :=
    nth (Z.to_nat 1)
      (if negb (Z.land (card_type sample_dev) VCA_VV =? 0)
       then plx_reset_bits_vv else plx_reset_bits_mv) 0 in
  let old := reg_val (mmio sample_dev) GPIO_REG in
  let after :=
    (plx_card_reset {[ (0, 1) := 5 ]} sample_dev 1 10000 10001 10030).2 in
  log (mmio after)
  = log (mmio sample_dev)
    ++ [ LbpResetStart (card_id sample_dev) 1;
         MmioRead GPIO_REG;
         MmioWrite (Z.land old (not32 bit)) GPIO_REG;
         Sleep RESET_PULSE_TIME;
         MmioRead GPIO_REG;
         MmioWrite (Z.lor old bit) GPIO_REG;
         Sleep 100;
         LbpResetStop (card_id sample_dev) 1 ] /\
  reg_val (mmio after) GPIO_REG = Z.lor old bit /\
  forall off, off <> GPIO_REG ->
    regs (mmio after) !! off = regs (mmio sample_dev) !! off.
Proof.
  refine (card_reset_gpio_pulse {[ (0, 1) := 5 ]} sample_dev 1 5
            10000 10001 10030 _ _ _ _).
  - vm_compute; split; [discriminate|reflexivity].
  - vm_compute; reflexivity.
  - vm_compute; reflexivity.
  - vm_compute; split; [discriminate|reflexivity].
Defined.

Lemma bios_recovery_mode_bit_witness :
  let old := reg_val (mmio sample_dev) GPIO_REG in
  (Z.land (card_type sample_dev) VCA_MV <> 0 ->
   exists enabled disabled,
     plx_enable_bios_recovery_mode sample_dev 1 = Some enabled /\
     reg_val (mmio enabled) GPIO_REG = Z.land old (not32 0x20000) /\
     Z.land (reg_val (mmio enabled) GPIO_REG) 0x20000 = 0 /\
     plx_disable_bios_recovery_mode enabled 1 = Some disabled /\
     reg_val (mmio disabled) GPIO_REG = Z.lor old 0x20000 /\
     forall off, off <> GPIO_REG ->
       regs (mmio disabled) !! off = regs (mmio sample_dev) !! off) /\
  (Z.land (card_type sample_dev) VCA_MV = 0 ->
   forall cpu, plx_enable_bios_recovery_mode sample_dev cpu = Some sample_dev /\
               plx_disable_bios_recovery_mode sample_dev cpu = Some sample_dev).
Proof.
  refine (bios_recovery_mode_bit sample_dev 1 0x20000 _ _ _).
  - reflexivity.
  - lia.
  - vm_compute; split; [discriminate|reflexivity].
Defined.

Lemma init_gpios_once_witness :
  let first := plx_init_vca_g2_gpios sample_dev in
  Z.land (reg_val (mmio first) GPIO_REG) PLX_CARD_RESET_BIT <> 0 /\
  regs (mmio (plx_init_vca_g2_gpios first)) = regs (mmio first) /\
  log (mmio (plx_init_vca_g2_gpios first))
  = log (mmio first) ++ [MmioRead GPIO_REG].
Proof.
  refine (init_gpios_once sample_dev _). vm_compute; discriminate.
Defined.

Lemma power_button_grace_witness :
  let pressed := plx_card_press_power_button sample_dev ∅ 1 false 5000 in
  fst pressed !! 1 = Some 5000 /\
  fst (plx_card_check_power_button_state (snd pressed) (fst pressed) 1
         (u64 (5000 + 100)))
  = if 100 <? POWER_GRACE_PERIOD_JIFFIES then 2 else 0.
Proof.
  refine (power_button_grace sample_dev ∅ 1 false 5000 100 _ _ _ _ _ _).
  - vm_compute; discriminate.
  - vm_compute; split; [discriminate|reflexivity].
  - vm_compute; discriminate.
  - lia.
  - lia.
  - simpl; lia.
Defined.

Lemma ioremap_iounmap_witness :
  (forall out, Some 0x800 = Some out ->
     plx_ioremap sample_dev true 0xffffc90000000000 0x1800 0x900
     = (u64 (0xffffc90000000000 + out), sample_mapped) /\
     plx_iounmap sample_mapped true 0xffffc90000000000
       (u64 (0xffffc90000000000 + out))
     = plx_del_a_lut_entry sample_mapped out) /\
  (Some 0x800 = None ->
     plx_ioremap sample_dev true 0xffffc90000000000 0x1800 0x900
     = (0, sample_mapped) /\
     mmio sample_mapped = mmio sample_dev) /\
  plx_ioremap sample_dev false 0xffffc90000000000 0x1800 0x900
  = (u64 (0xffffc90000000000 + 0x1800), sample_dev) /\
  (forall va, plx_iounmap sample_dev false 0xffffc90000000000 va
              = Some sample_dev).
Proof.
  refine (ioremap_iounmap sample_dev 0xffffc90000000000 0x1800 0x900 0
            (Some 0x800) sample_mapped _).
  vm_compute; reflexivity.
Defined.

Lemma reg_base_blocks_witness :
  0x3C000 <= hw_reg_base 0x80000001 <= 0x3F000 /\
  hw_reg_base 0x80000001 mod 0x1000 = 0 /\
  hw_reg_base_peer 0x80000001
  = (if hw_link_side 0x80000001 =? 0 then hw_reg_base 0x80000001 + 0x1000
     else hw_reg_base 0x80000001 - 0x1000) /\
  (hw_reg_base 0x80000001 = hw_reg_base 0 ->
   hw_link_side 0x80000001 = hw_link_side 0
   /\ hw_port_id 0x80000001 = hw_port_id 0).
Proof. exact (reg_base_blocks 0x80000001 0). Defined.

Lemma rid_lut_fields_witness :
  let rid := plx_rid_lut 3 17 0 0 in
  Z.land (Z.shiftr rid 24) 0xff = 3 /\
  Z.land (Z.shiftr rid 19) 0xf = 17 mod 16 /\
  Z.land (Z.shiftr rid 8) 0xff = 0 /\
  Z.land (Z.shiftr rid 3) 0xf = 0 mod 16.
Proof.
  refine (rid_lut_fields 3 17 0 0 _ _ _ _ _); try lia. reflexivity.
Defined.

Lemma rid_lut_dma_fields_witness :
  let rid := plx_rid_lut_dma 5 1 in
  Z.land (Z.shiftr rid 8) 0xff = 5 /\
  Z.land (Z.shiftr rid 3) 0xf = 1 mod 16.
Proof.
  refine (rid_lut_dma_fields 5 1 _ _ _); try lia. reflexivity.
Defined.

Lemma eeprom_image_validates_witness :
  eeprom_validate (eeprom_image 0 sample_config)
    (4 + Z.of_nat (length sample_config) + 4)
  = PLX_EEP_STATUS_OK.
Proof.
  refine (eeprom_image_validates 0 sample_config _ _ _ _ _ _).
  - reflexivity.
  - reflexivity.
  - simpl; lia.
  - simpl; lia.
  - reflexivity.
  - right; reflexivity.
Defined.

(** The sample image, and what a flipped configuration bit does to it. *)
Example sample_image_bytes :
  eeprom_image 0 sample_config
  = [0x5A; 0; 6; 0] ++ sample_config
    ++ le32 (eeprom_calc_crc ([0x5A; 0; 6; 0] ++ sample_config) 14).
Proof. reflexivity. Qed.

Example sample_image_corrupted :
  eeprom_validate (<[5%nat := 0x03]> (eeprom_image 0 sample_config)) 14
  = PLX_EEP_INTERNAL_ERROR.
Proof. vm_compute. reflexivity. Qed.

Lemma power_button_check_reads_only_witness :
  let checked :=
    snd (plx_card_check_power_button_state sample_dev ∅ 1 5000) in
  regs (mmio checked) = regs (mmio sample_dev) /\
  (log (mmio checked) = log (mmio sample_dev)
   \/ log (mmio checked) = log (mmio sample_dev) ++ [MmioRead GPIO_REG]) /\
  (Z.land (card_type sample_dev) VCA_MV = 0 -> checked = sample_dev).
Proof. exact (power_button_check_reads_only sample_dev ∅ 1 5000). Defined.

Lemma unmap_finds_segment_of_map_witness :
  exists out mapped,
    plx_add_a_lut_entry sample_dev 0x1800 0x900 = (0, Some out, mapped) /\
    0 * alm_segment_size (a_lut_manager sample_mapped) <= out
    < (0 + 1) * alm_segment_size (a_lut_manager sample_mapped) /\
    u32 (out / alm_segment_size (a_lut_manager mapped)) = 0.
Proof.
  refine (unmap_finds_segment_of_map sample_dev 0x1800 0x900 0 0 2
            (a_lut_manager sample_mapped) _ _ _ _ _ _ _).
  - vm_compute; reflexivity.
  - now left.
  - reflexivity.
  - vm_compute; reflexivity.
  - lia.
  - vm_compute; discriminate.
  - lia.
Defined.

End MoreExamples.
